(** * Watch-party front end: room reconciler, playback sync, chat and voice mesh

    A shallow embedding of the client-side synchronisation core:
    - [Types]        the shared records of the [types] module;
    - [UseRoom]      the [useRoom] hook: socket event handlers and actions;
    - [VideoPlayer]  the sync effect and the media-element event handlers;
    - [VoiceCall]    the voice-mesh signalling coordinator.

    JavaScript numbers are modelled as rationals ([Q]); identifiers are
    strings compared with [===] ([String.eqb]); chat text is a sequence of
    UTF-16 code units so that [String.prototype.trim] can be written out. *)

From Stdlib Require Import QArith Qabs.
From stdpp Require Import base list strings gmap.

Local Open Scope string_scope.
Local Open Scope list_scope.

(* ===================================================================== *)
(** ** Shared types *)
(* ===================================================================== *)

Module Types.

Inductive ParticipantRole := host | guest.

Definition role_eqb (a b : ParticipantRole) : bool :=
  match a, b with
  | host, host | guest, guest => true
  | _, _ => false
  end.

Record Participant := mkParticipant {
  p_id : string;
  p_name : string;
  p_role : ParticipantRole;
  p_avatarColor : string;
  p_joinedAt : string
}.

(** [{ ...p, role: r }] *)
Definition with_role (p : Participant) (r : ParticipantRole) : Participant :=
  {| p_id := p_id p; p_name := p_name p; p_role := r;
     p_avatarColor := p_avatarColor p; p_joinedAt := p_joinedAt p |}.

Record PlaybackState := mkPlayback {
  isPlaying : bool;
  currentTime : Q;
  playbackRate : Q;
  lastUpdated : Q
}.

(** Text of a chat message: UTF-16 code units. *)
Definition jstext := list N.

Record ChatMessage := mkChat {
  m_id : string;
  m_roomId : string;
  m_senderId : string;
  m_senderName : string;
  m_content : jstext;
  m_timestamp : string
}.

Record VoiceParticipant := mkVoice {
  vp_id : string;
  vp_name : string;
  vp_isMuted : bool
}.

Inductive MediaType := mt_video | mt_iframe | mt_youtube | mt_hyperbeam.

Record HyperbeamSession := mkHyperbeam {
  embedUrl : string;
  sessionId : string
}.

Record RoomInfo := mkRoomInfo {
  r_id : string;
  r_name : string;
  r_hostName : string;
  r_participantCount : Q;
  r_mediaUrl : string;
  r_mediaType : MediaType;
  r_playbackState : PlaybackState;
  r_hyperbeam : option HyperbeamSession
}.

(** [{ ...prev, mediaUrl, mediaType }] *)
Definition with_media (r : RoomInfo) (url : string) (ty : MediaType) : RoomInfo :=
  {| r_id := r_id r; r_name := r_name r; r_hostName := r_hostName r;
     r_participantCount := r_participantCount r;
     r_mediaUrl := url; r_mediaType := ty;
     r_playbackState := r_playbackState r; r_hyperbeam := r_hyperbeam r |}.

End Types.
Import Types.

(* ===================================================================== *)
(** ** The [useRoom] hook *)
(* ===================================================================== *)

Module UseRoom.

(** The state cells of the hook that the room, playback, media and chat
    handlers write. *)
Record RoomState := mkRoomState {
  error : option string;
  roomInfo : option RoomInfo;
  participants : list Participant;
  currentParticipant : option Participant;
  playbackState : PlaybackState;
  messages : list ChatMessage
}.

(** Initial cells; [now] is the [Date.now()] read when the hook mounts. *)
Definition initial (now : Q) : RoomState :=
  {| error := None; roomInfo := None; participants := [];
     currentParticipant := None;
     playbackState := mkPlayback false 0 1 now;
     messages := [] |}.

(** [const isHost = currentParticipant?.role === 'host'] *)
Definition isHost (s : RoomState) : bool :=
  match currentParticipant s with
  | Some p => role_eqb (p_role p) host
  | None => false
  end.

(** One call of a state setter.  A handler enqueues setter calls; React
    applies the whole queue of one handler run before anything re-renders,
    so consumers only observe the state after [commit]. *)
Inductive Update :=
| SetError (e : option string)
| SetRoomInfo (f : option RoomInfo → option RoomInfo)
| SetParticipants (f : list Participant → list Participant)
| SetCurrentParticipant (f : option Participant → option Participant)
| SetPlaybackState (f : PlaybackState → PlaybackState)
| SetMessages (f : list ChatMessage → list ChatMessage).

Definition apply_update (s : RoomState) (u : Update) : RoomState :=
  match u with
  | SetError e =>
      mkRoomState e (roomInfo s) (participants s) (currentParticipant s)
                  (playbackState s) (messages s)
  | SetRoomInfo f =>
      mkRoomState (error s) (f (roomInfo s)) (participants s)
                  (currentParticipant s) (playbackState s) (messages s)
  | SetParticipants f =>
      mkRoomState (error s) (roomInfo s) (f (participants s))
                  (currentParticipant s) (playbackState s) (messages s)
  | SetCurrentParticipant f =>
      mkRoomState (error s) (roomInfo s) (participants s)
                  (f (currentParticipant s)) (playbackState s) (messages s)
  | SetPlaybackState f =>
      mkRoomState (error s) (roomInfo s) (participants s)
                  (currentParticipant s) (f (playbackState s)) (messages s)
  | SetMessages f =>
      mkRoomState (error s) (roomInfo s) (participants s)
                  (currentParticipant s) (playbackState s) (f (messages s))
  end.

Definition commit (us : list Update) (s : RoomState) : RoomState :=
  fold_left apply_update us s.

Definition writes_playback (u : Update) : bool :=
  match u with SetPlaybackState _ => true | _ => false end.
Definition writes_roomInfo (u : Update) : bool :=
  match u with SetRoomInfo _ => true | _ => false end.
Definition writes_messages (u : Update) : bool :=
  match u with SetMessages _ => true | _ => false end.

(** *** Server-to-client events handled by the hook *)

Inductive ServerEvent :=
| RoomJoined (participant : Participant) (roomParticipants : list Participant)
| RoomParticipantJoined (participant : Participant)
| RoomParticipantLeft (participantId : string)
| RoomHostChanged (newHostId : string)
| RoomClosed
| PlaybackSync (state : PlaybackState)
| PlaybackPlay (currentTime : Q)
| PlaybackPause (currentTime : Q)
| PlaybackSeek (currentTime : Q)
| MediaChanged (mediaUrl : string) (mediaType : MediaType)
| ChatHistory (history : list ChatMessage)
| ChatMessageEvent (message : ChatMessage).

(** [prev.some(p => p.id === participant.id)] *)
Definition has_participant (pid : string) (prev : list Participant) : bool :=
  existsb (λ p, String.eqb (p_id p) pid) prev.

(** updater of [room:participant-joined] *)
Definition participant_joined (participant : Participant)
    (prev : list Participant) : list Participant :=
  if has_participant (p_id participant) prev then prev
  else prev ++ [participant].

(** updater of [room:participant-left] *)
Definition participant_left (participantId : string)
    (prev : list Participant) : list Participant :=
  List.filter (λ p, negb (String.eqb (p_id p) participantId)) prev.

(** updater of [room:host-changed] on the participant list *)
Definition host_changed (newHostId : string)
    (prev : list Participant) : list Participant :=
  map (λ p, with_role p (if String.eqb (p_id p) newHostId then host else guest))
      prev.

(** updater of [room:host-changed] on the local participant *)
Definition host_changed_current (newHostId : string)
    (prev : option Participant) : option Participant :=
  match prev with
  | None => None
  | Some p =>
      let newRole := if String.eqb (p_id p) newHostId then host else guest in
      if negb (role_eqb (p_role p) newRole) then Some (with_role p newRole)
      else Some p
  end.

(** updaters of [playback:play], [playback:pause], [playback:seek] *)
Definition playback_play (now t : Q) (prev : PlaybackState) : PlaybackState :=
  mkPlayback true t (playbackRate prev) now.
Definition playback_pause (now t : Q) (prev : PlaybackState) : PlaybackState :=
  mkPlayback false t (playbackRate prev) now.
Definition playback_seek (now t : Q) (prev : PlaybackState) : PlaybackState :=
  mkPlayback (isPlaying prev) t (playbackRate prev) now.

(** the state written by [media:changed] *)
Definition playback_reset (now : Q) : PlaybackState :=
  mkPlayback false 0 1 now.

(** updater of [media:changed] on the room info:
    [prev ? { ...prev, mediaUrl, mediaType } : null] *)
Definition media_changed (url : string) (ty : MediaType)
    (prev : option RoomInfo) : option RoomInfo :=
  match prev with
  | Some r => Some (with_media r url ty)
  | None => None
  end.

(** updater of [chat:message]: [[...prev, message]] *)
Definition chat_message (message : ChatMessage)
    (prev : list ChatMessage) : list ChatMessage :=
  prev ++ [message].

(** The setter calls made by the handler of each event; [now] is the
    value of [Date.now()] while the handler runs. *)
Definition on (now : Q) (ev : ServerEvent) : list Update :=
  match ev with
  | RoomJoined participant roomParticipants =>
      [SetCurrentParticipant (λ _, Some participant);
       SetParticipants (λ _, roomParticipants)]
  | RoomParticipantJoined participant =>
      [SetParticipants (participant_joined participant)]
  | RoomParticipantLeft participantId =>
      [SetParticipants (participant_left participantId)]
  | RoomHostChanged newHostId =>
      [SetParticipants (host_changed newHostId);
       SetCurrentParticipant (host_changed_current newHostId)]
  | RoomClosed =>
      [SetError (Some "Room has been closed")]
  | PlaybackSync state =>
      [SetPlaybackState (λ _, state)]
  | PlaybackPlay t =>
      [SetPlaybackState (playback_play now t)]
  | PlaybackPause t =>
      [SetPlaybackState (playback_pause now t)]
  | PlaybackSeek t =>
      [SetPlaybackState (playback_seek now t)]
  | MediaChanged mediaUrl mediaType =>
      [SetRoomInfo (media_changed mediaUrl mediaType);
       SetPlaybackState (λ _, playback_reset now)]
  | ChatHistory history =>
      [SetMessages (λ _, history)]
  | ChatMessageEvent message =>
      [SetMessages (chat_message message)]
  end.

(** One handler run, as consumers see it. *)
Definition step (s : RoomState) (e : Q * ServerEvent) : RoomState :=
  commit (on e.1 e.2) s.

(** Replay of a finite sequence of timestamped events. *)
Definition run (tr : list (Q * ServerEvent)) (s : RoomState) : RoomState :=
  fold_left step tr s.

(** The successive states of a replay, the starting state first. *)
Fixpoint states (tr : list (Q * ServerEvent)) (s : RoomState) : list RoomState :=
  match tr with
  | [] => [s]
  | e :: tr' => s :: states tr' (step s e)
  end.

(** *** Client-to-server commands *)

Inductive ClientCommand :=
| EmitChatSend (content : jstext)
| EmitPlaybackPlay (currentTime : Q)
| EmitPlaybackPause (currentTime : Q)
| EmitPlaybackSeek (currentTime : Q)
| EmitMediaChange (mediaUrl : string) (mediaType : MediaType)
| EmitRoomLeave.

(** What an action does: setter calls and commands put on the socket. *)
Record Effects := mkEffects {
  updates : list Update;
  emitted : list ClientCommand
}.

(** The socket of this room session. *)
Inductive Socket := TheSocket.

(** ECMAScript WhiteSpace and LineTerminator code points, the ones
    [String.prototype.trim] strips (all lie in the basic plane). *)
Definition isWhiteSpace (c : N) : bool :=
  match c with
  | 0x9 | 0xA | 0xB | 0xC | 0xD | 0x20 | 0xA0 | 0x1680
  | 0x2000 | 0x2001 | 0x2002 | 0x2003 | 0x2004 | 0x2005
  | 0x2006 | 0x2007 | 0x2008 | 0x2009 | 0x200A
  | 0x2028 | 0x2029 | 0x202F | 0x205F | 0x3000 | 0xFEFF => true
  | _ => false
  end%N.

Fixpoint trimStart (s : jstext) : jstext :=
  match s with
  | [] => []
  | c :: s' => if isWhiteSpace c then trimStart s' else s
  end.

Definition trimEnd (s : jstext) : jstext := rev (trimStart (rev s)).

Definition trim (s : jstext) : jstext := trimEnd (trimStart s).

(** Truthiness of a string: non-empty. *)
Definition truthy (s : jstext) : bool :=
  match s with [] => false | _ => true end.

(** The hook as its actions see it: the state cells and the socket ref
    ([None] for [null]). *)
Record Hook := mkHook {
  state : RoomState;
  socketRef : option Socket
}.

Definition sendMessage (h : Hook) (content : jstext) : Effects :=
  if truthy (trim content) && bool_decide (is_Some (socketRef h))
  then mkEffects [] [EmitChatSend content]
  else mkEffects [] [].

Definition play (h : Hook) (t : Q) : Effects :=
  match socketRef h with
  | Some _ => mkEffects [] [EmitPlaybackPlay t]
  | None => mkEffects [] []
  end.

Definition pause (h : Hook) (t : Q) : Effects :=
  match socketRef h with
  | Some _ => mkEffects [] [EmitPlaybackPause t]
  | None => mkEffects [] []
  end.

Definition seek (h : Hook) (t : Q) : Effects :=
  match socketRef h with
  | Some _ => mkEffects [] [EmitPlaybackSeek t]
  | None => mkEffects [] []
  end.

Definition changeMedia (h : Hook) (url : string) (ty : MediaType) : Effects :=
  match socketRef h with
  | Some _ => mkEffects [] [EmitMediaChange url ty]
  | None => mkEffects [] []
  end.

(** *** Observations on states and traces *)

Definition participant_ids (ps : list Participant) : list string := map p_id ps.

Definition is_host (p : Participant) : bool := role_eqb (p_role p) host.

(** The participants currently marked host. *)
Definition hosts (ps : list Participant) : list Participant :=
  List.filter is_host ps.

Definition message_ids (log : list ChatMessage) : list string := map m_id log.

(** A sequence of [room:host-changed] events, each with the clock reading
    of its handler run. *)
Definition host_changes (l : list (Q * string)) : list (Q * ServerEvent) :=
  map (λ e, (e.1, RoomHostChanged e.2)) l.

(** A sequence of live [chat:message] events. *)
Definition live_messages (l : list (Q * ChatMessage)) : list (Q * ServerEvent) :=
  map (λ e, (e.1, ChatMessageEvent e.2)) l.

Definition is_playback_event (ev : ServerEvent) : bool :=
  match ev with
  | PlaybackSync _ | PlaybackPlay _ | PlaybackPause _ | PlaybackSeek _ => true
  | _ => false
  end.

(** The time a playback event stamps on the state: the payload's own
    [lastUpdated] for a sync, the local clock for the others. *)
Definition stamp (e : Q * ServerEvent) : Q :=
  match e.2 with
  | PlaybackSync state => lastUpdated state
  | _ => e.1
  end.

(** [lo <= x1 <= x2 <= ...] *)
Fixpoint nondecreasing (lo : Q) (l : list Q) : Prop :=
  match l with
  | [] => True
  | x :: l' => (lo <= x)%Q ∧ nondecreasing x l'
  end.

(** The [lastUpdated] field of the successive states of a replay. *)
Definition lastUpdated_trace (tr : list (Q * ServerEvent)) (s : RoomState) : list Q :=
  map (λ s', lastUpdated (playbackState s')) (states tr s).

(** The host's transport commands as relayed by the server. *)
Definition is_transport_event (ev : ServerEvent) : bool :=
  match ev with
  | PlaybackPlay _ | PlaybackPause _ | PlaybackSeek _ => true
  | _ => false
  end.

(** A snapshot event carries distinct participant ids. *)
Definition snapshot_distinct (e : Q * ServerEvent) : Prop :=
  match e.2 with
  | RoomJoined _ roomParticipants => NoDup (participant_ids roomParticipants)
  | _ => True
  end.

End UseRoom.

(* ===================================================================== *)
(** ** The video player: sync effect and element event handlers *)
(* ===================================================================== *)

Module VideoPlayer.
Import UseRoom.

(** The part of the [<video>] element the component reads and writes. *)
Record Video := mkVideo {
  v_currentTime : Q;
  v_paused : bool;
  v_playbackRate : Q
}.

Definition SYNC_THRESHOLD : Q := 2.

(** Refs of the component: the element (absent for embeds and while no
    media is loaded), the re-entrancy flag, and the pending timers that
    will clear the flag (their due times). *)
Record Player := mkPlayer {
  videoRef : option Video;
  isSyncingRef : bool;
  timers : list Q
}.

(** Writes the sync effect performs on the element. *)
Inductive VideoOp :=
| SetCurrentTime (t : Q)
| CallPlay
| CallPause
| SetPlaybackRate (r : Q).

(** The element after a write that it accepts: a [play()] whose promise is
    fulfilled, a position inside the seekable range.  A refused [play()]
    or a clamped position is not described here. *)
Definition apply_op (v : Video) (op : VideoOp) : Video :=
  match op with
  | SetCurrentTime t => mkVideo t (v_paused v) (v_playbackRate v)
  | CallPlay => mkVideo (v_currentTime v) false (v_playbackRate v)
  | CallPause => mkVideo (v_currentTime v) true (v_playbackRate v)
  | SetPlaybackRate r => mkVideo (v_currentTime v) (v_paused v) r
  end.

(** [a > b] on numbers. *)
Definition gtb (a b : Q) : bool := negb (Qle_bool a b).

(** [(Date.now() - playbackState.lastUpdated) / 1000]: milliseconds of
    wall clock turned into seconds. *)
Definition timeSinceUpdate (now : Q) (ps : PlaybackState) : Q :=
  (now - lastUpdated ps) / 1000.

Definition expectedTime (now : Q) (ps : PlaybackState) : Q :=
  if isPlaying ps then currentTime ps + timeSinceUpdate now ps
  else currentTime ps.

Definition drift (now : Q) (video : Video) (ps : PlaybackState) : Q :=
  Qabs (v_currentTime video - expectedTime now ps).

Definition seekOps (now : Q) (video : Video) (ps : PlaybackState) : list VideoOp :=
  if gtb (drift now video ps) SYNC_THRESHOLD
  then [SetCurrentTime (expectedTime now ps)] else [].

Definition playPauseOps (video : Video) (ps : PlaybackState) : list VideoOp :=
  if isPlaying ps && v_paused video then [CallPlay]
  else if negb (isPlaying ps) && negb (v_paused video) then [CallPause]
  else [].

Definition rateOps (video : Video) (ps : PlaybackState) : list VideoOp :=
  if negb (Qeq_bool (v_playbackRate video) (playbackRate ps))
  then [SetPlaybackRate (playbackRate ps)] else [].

(** The element writes of one run of the sync effect, in program order. *)
Definition syncOps (now : Q) (video : Video) (ps : PlaybackState) : list VideoOp :=
  seekOps now video ps ++ playPauseOps video ps ++ rateOps video ps.

(** The sync effect, run when [playbackState] or [mediaUrl] changed. *)
Definition syncEffect (now : Q) (mediaUrl : string) (ps : PlaybackState)
    (pl : Player) : Player :=
  match videoRef pl with
  | None => pl
  | Some video =>
      if String.eqb mediaUrl "" then pl
      else
        {| videoRef := Some (fold_left apply_op (syncOps now video ps) video);
           isSyncingRef := true;
           timers := timers pl ++ [(now + 100)%Q] |}
  end.

(** A pending timer of the sync effect fires. *)
Definition timerFired (pl : Player) : Player :=
  {| videoRef := videoRef pl; isSyncingRef := false;
     timers := tail (timers pl) |}.

Definition noEffects : Effects := mkEffects [] [].

(** [onPlay], [onPause], [onSeeked] of the element; [cb] is the callback
    prop the page passes in. *)
Definition handleEvent (isHost : bool) (pl : Player) (cb : Q → Effects) : Effects :=
  match videoRef pl with
  | Some video =>
      if isHost && negb (isSyncingRef pl) then cb (v_currentTime video)
      else noEffects
  | None => noEffects
  end.

Definition handlePlay := handleEvent.
Definition handlePause := handleEvent.
Definition handleSeek := handleEvent.

(** The wiring of the room page: [onPlay={play}], [onPause={pause}],
    [onSeek={seek}], with [isHost] taken from the hook. *)
Definition pageOnPlay (h : Hook) (pl : Player) : Effects :=
  handlePlay (isHost (state h)) pl (play h).
Definition pageOnPause (h : Hook) (pl : Player) : Effects :=
  handlePause (isHost (state h)) pl (pause h).
Definition pageOnSeeked (h : Hook) (pl : Player) : Effects :=
  handleSeek (isHost (state h)) pl (seek h).

(** *** Controls of the player *)

(** The element writes of [togglePlayPause]. *)
Definition toggleOps (isHost : bool) (video : Video) : list VideoOp :=
  if negb isHost then []
  else if v_paused video then [CallPlay] else [CallPause].

(** The element writes of [seekTo]. *)
Definition seekToOps (isHost : bool) (time : Q) : list VideoOp :=
  if negb isHost then [] else [SetCurrentTime time].

(** The progress bar as [getBoundingClientRect] reports it. *)
Record Rect := mkRect {
  rect_left : Q;
  rect_width : Q
}.

(** The element writes of [handleProgressClick]; [duration] is the state
    cell, 0 until the element reports one.  A bar of width 0 would give a
    non-finite time, the assignment of which the element refuses. *)
Definition progressClickOps (isHost : bool) (progressRef : option Rect)
    (duration clientX : Q) : list VideoOp :=
  match progressRef with
  | Some rect =>
      if negb isHost || Qeq_bool duration 0 then []
      else if Qeq_bool (rect_width rect) 0 then []
      else seekToOps isHost ((clientX - rect_left rect) / rect_width rect * duration)
  | None => []
  end.

(** Writes reach the element only if there is one. *)
Definition perform (ops : list VideoOp) (pl : Player) : Player :=
  match videoRef pl with
  | Some video =>
      {| videoRef := Some (fold_left apply_op ops video);
         isSyncingRef := isSyncingRef pl; timers := timers pl |}
  | None => pl
  end.

Definition togglePlayPause (isHost : bool) (pl : Player) : Player :=
  match videoRef pl with
  | Some video => perform (toggleOps isHost video) pl
  | None => pl
  end.

Definition seekTo (isHost : bool) (time : Q) (pl : Player) : Player :=
  perform (seekToOps isHost time) pl.

Definition handleProgressClick (isHost : bool) (progressRef : option Rect)
    (duration clientX : Q) (pl : Player) : Player :=
  perform (progressClickOps isHost progressRef duration clientX) pl.

(** [duration ? (currentTime / duration) * 100 : 0] *)
Definition progressPercent (currentTime duration : Q) : Q :=
  if Qeq_bool duration 0 then 0 else currentTime / duration * 100.

(** The element events the component listens to, and the write that makes
    the element fire each. *)
Inductive ElementEvent := EvPlay | EvPause | EvSeeked.


(** The listener the room page ends up running for an element event. *)
Definition dispatch (h : Hook) (pl : Player) (ev : ElementEvent) : Effects :=
  match ev with
  | EvPlay => pageOnPlay h pl
  | EvPause => pageOnPause h pl
  | EvSeeked => pageOnSeeked h pl
  end.




End VideoPlayer.

(* ===================================================================== *)
(** ** The voice call: mesh signalling over the room socket *)
(* ===================================================================== *)

Module VoiceCall.
Import UseRoom.

(** Session descriptions and ICE candidates are opaque payloads. *)
Definition Sdp := string.
Definition IceCandidate := string.

(** An [RTCPeerConnection] the component constructed.  [pc_peerId] and
    [pc_isInitiator] are the arguments captured by its callbacks. *)
Record PeerConnection := mkPc {
  pc_peerId : string;
  pc_isInitiator : bool;
  pc_closed : bool;
  pc_remoteDescription : option Sdp
}.

Definition close_pc (pc : PeerConnection) : PeerConnection :=
  mkPc (pc_peerId pc) (pc_isInitiator pc) true (pc_remoteDescription pc).

Definition describe_pc (sdp : Sdp) (pc : PeerConnection) : PeerConnection :=
  mkPc (pc_peerId pc) (pc_isInitiator pc) (pc_closed pc) (Some sdp).

Inductive MediaStream := TheMicrophone.

Record Props := mkProps {
  socket : option Socket;
  currentUserId : string;
  currentUserName : string
}.

(** State cells and refs of the component.  [connections] is the store of
    every connection object constructed so far, addressed by allocation
    index; [peerConnectionsRef] is the [Map] from peer id to connection. *)
Record VoiceState := mkVoiceState {
  isInCall : bool;
  voiceParticipants : list VoiceParticipant;
  localStreamRef : option MediaStream;
  connections : list PeerConnection;
  peerConnectionsRef : gmap string nat;
  audioElementsRef : gset string
}.

Definition set_voiceParticipants (f : list VoiceParticipant → list VoiceParticipant)
    (st : VoiceState) : VoiceState :=
  mkVoiceState (isInCall st) (f (voiceParticipants st)) (localStreamRef st)
               (connections st) (peerConnectionsRef st) (audioElementsRef st).

Definition set_connections (f : list PeerConnection → list PeerConnection)
    (st : VoiceState) : VoiceState :=
  mkVoiceState (isInCall st) (voiceParticipants st) (localStreamRef st)
               (f (connections st)) (peerConnectionsRef st) (audioElementsRef st).

Definition set_peers (f : gmap string nat → gmap string nat)
    (st : VoiceState) : VoiceState :=
  mkVoiceState (isInCall st) (voiceParticipants st) (localStreamRef st)
               (connections st) (f (peerConnectionsRef st)) (audioElementsRef st).

Definition set_audio (f : gset string → gset string)
    (st : VoiceState) : VoiceState :=
  mkVoiceState (isInCall st) (voiceParticipants st) (localStreamRef st)
               (connections st) (peerConnectionsRef st) (f (audioElementsRef st)).

(** What a handler does besides writing its own state: messages put on
    the socket and calls into connection objects. *)
Inductive VoiceEffect :=
| EmitVoiceOffer (targetId : string) (pc : nat)
| EmitVoiceAnswer (targetId : string) (pc : nat)
| EmitVoiceIceCandidate (targetId : string) (candidate : IceCandidate)
| PcSetRemoteDescription (pc : nat) (sdp : Sdp)
| PcAddIceCandidate (pc : nat) (candidate : IceCandidate)
| PcClose (pc : nat).

Definition is_add_candidate (e : VoiceEffect) : bool :=
  match e with PcAddIceCandidate _ _ => true | _ => false end.

Definition cleanupPeerConnection (peerId : string) (st : VoiceState)
    : VoiceState * list VoiceEffect :=
  let '(st1, effs) :=
    match peerConnectionsRef st !! peerId with
    | Some pc =>
        (set_peers (delete peerId) (set_connections (alter close_pc pc) st),
         [PcClose pc])
    | None => (st, [])
    end in
  (set_audio (λ a, a ∖ {[peerId]}) st1, effs).

(** [createPeerConnection]: returns the new connection, or [None] for
    [null].  The offer of an initiator is produced by a promise chain; it
    is recorded here as an effect of the call that starts the chain. *)
Definition createPeerConnection (props : Props) (peerId : string)
    (isInitiator : bool) (st : VoiceState)
    : option nat * VoiceState * list VoiceEffect :=
  match socket props, localStreamRef st with
  | Some _, Some _ =>
      let pc := length (connections st) in
      let st1 := set_connections (λ c, c ++ [mkPc peerId isInitiator false None]) st in
      let st2 := set_peers (insert peerId pc) st1 in
      (Some pc, st2, if isInitiator then [EmitVoiceOffer peerId pc] else [])
  | _, _ => (None, st, [])
  end.

Inductive VoiceEvent :=
| VoiceParticipants (participants : list VoiceParticipant)
| VoiceParticipantJoined (participant : VoiceParticipant)
| VoiceParticipantLeft (participantId : string)
| VoiceParticipantMuted (participantId : string) (isMuted : bool)
| VoiceOffer (fromId : string) (sdp : Sdp)
| VoiceAnswer (fromId : string) (sdp : Sdp)
| VoiceIceCandidate (fromId : string) (candidate : option IceCandidate).

(** [p.id !== id] *)
Definition other_than (id : string) (p : VoiceParticipant) : bool :=
  negb (String.eqb (vp_id p) id).

(** body of the [forEach] of [voice:participants] *)
Definition connectTo (props : Props) (inCall : bool)
    (acc : VoiceState * list VoiceEffect) (p : VoiceParticipant)
    : VoiceState * list VoiceEffect :=
  if other_than (currentUserId props) p && inCall then
    let '(_, st', effs) := createPeerConnection props (vp_id p) true acc.1 in
    (st', acc.2 ++ effs)
  else acc.

Definition onParticipants (props : Props) (participants : list VoiceParticipant)
    (st : VoiceState) : VoiceState * list VoiceEffect :=
  let st1 := set_voiceParticipants
               (λ _, List.filter (other_than (currentUserId props)) participants) st in
  fold_left (connectTo props (isInCall st)) participants (st1, []).

(** updater of [voice:participant-joined] *)
Definition voice_joined (participant : VoiceParticipant)
    (prev : list VoiceParticipant) : list VoiceParticipant :=
  List.filter (other_than (vp_id participant)) prev ++ [participant].

Definition onParticipantJoined (props : Props) (participant : VoiceParticipant)
    (st : VoiceState) : VoiceState * list VoiceEffect :=
  let st1 := set_voiceParticipants (voice_joined participant) st in
  if isInCall st && other_than (currentUserId props) participant then
    let '(_, st', effs) := createPeerConnection props (vp_id participant) false st1 in
    (st', effs)
  else (st1, []).

Definition onParticipantLeft (participantId : string) (st : VoiceState)
    : VoiceState * list VoiceEffect :=
  cleanupPeerConnection participantId
    (set_voiceParticipants (List.filter (other_than participantId)) st).

(** updater of [voice:participant-muted] *)
Definition voice_muted (participantId : string) (muted : bool)
    (prev : list VoiceParticipant) : list VoiceParticipant :=
  map (λ p, if String.eqb (vp_id p) participantId
            then mkVoice (vp_id p) (vp_name p) muted else p) prev.

Definition onParticipantMuted (participantId : string) (muted : bool)
    (st : VoiceState) : VoiceState * list VoiceEffect :=
  (set_voiceParticipants (voice_muted participantId muted) st, []).

Definition onOffer (props : Props) (fromId : string) (sdp : Sdp)
    (st : VoiceState) : VoiceState * list VoiceEffect :=
  let '(pc, st1, effs) :=
    match peerConnectionsRef st !! fromId with
    | Some pc => (Some pc, st, [])
    | None => createPeerConnection props fromId false st
    end in
  match pc with
  | Some pc =>
      (set_connections (alter (describe_pc sdp) pc) st1,
       effs ++ [PcSetRemoteDescription pc sdp; EmitVoiceAnswer fromId pc])
  | None => (st1, effs)
  end.

Definition onAnswer (fromId : string) (sdp : Sdp) (st : VoiceState)
    : VoiceState * list VoiceEffect :=
  match peerConnectionsRef st !! fromId with
  | Some pc =>
      (set_connections (alter (describe_pc sdp) pc) st,
       [PcSetRemoteDescription pc sdp])
  | None => (st, [])
  end.

Definition onIceCandidate (fromId : string) (candidate : option IceCandidate)
    (st : VoiceState) : VoiceState * list VoiceEffect :=
  match peerConnectionsRef st !! fromId, candidate with
  | Some pc, Some c => (st, [PcAddIceCandidate pc c])
  | _, _ => (st, [])
  end.

(** [pc.onconnectionstatechange] of the connection created for [peerId],
    observing [failed] or [disconnected]. *)
Definition onConnectionLost (peerId : string) (st : VoiceState)
    : VoiceState * list VoiceEffect :=
  cleanupPeerConnection peerId st.

(** [pc.ontrack] of the connection created for [peerId]: the audio element
    of the peer is created on first use. *)
Definition onTrack (peerId : string) (st : VoiceState)
    : VoiceState * list VoiceEffect :=
  (set_audio (λ a, a ∪ {[peerId]}) st, []).

(** [pc.onicecandidate] of the connection created for [peerId]; the event
    carries [None] at the end of gathering. *)
Definition onLocalCandidate (peerId : string) (candidate : option IceCandidate)
    (st : VoiceState) : VoiceState * list VoiceEffect :=
  match candidate with
  | Some c => (st, [EmitVoiceIceCandidate peerId c])
  | None => (st, [])
  end.

Definition handle (props : Props) (ev : VoiceEvent) (st : VoiceState)
    : VoiceState * list VoiceEffect :=
  match ev with
  | VoiceParticipants participants => onParticipants props participants st
  | VoiceParticipantJoined participant => onParticipantJoined props participant st
  | VoiceParticipantLeft participantId => onParticipantLeft participantId st
  | VoiceParticipantMuted participantId muted => onParticipantMuted participantId muted st
  | VoiceOffer fromId sdp => onOffer props fromId sdp st
  | VoiceAnswer fromId sdp => onAnswer fromId sdp st
  | VoiceIceCandidate fromId candidate => onIceCandidate fromId candidate st
  end.

(** Replay of a sequence of socket events, collecting the effects. *)
Definition run (props : Props) (evs : list VoiceEvent) (st : VoiceState)
    : VoiceState * list VoiceEffect :=
  fold_left (λ acc ev, let '(st', effs) := handle props ev acc.1 in
                       (st', acc.2 ++ effs))
            evs (st, []).

(** Connections constructed for [peerId] and not closed. *)
Definition open_links (peerId : string) (st : VoiceState) : list PeerConnection :=
  List.filter (λ pc, String.eqb (pc_peerId pc) peerId && negb (pc_closed pc))
              (connections st).

Definition voice_ids (st : VoiceState) : list string :=
  map vp_id (voiceParticipants st).

(** What an event does to the participant list. *)
Definition roster_update (props : Props) (ev : VoiceEvent)
    (prev : list VoiceParticipant) : list VoiceParticipant :=
  match ev with
  | VoiceParticipants participants =>
      List.filter (other_than (currentUserId props)) participants
  | VoiceParticipantJoined participant => voice_joined participant prev
  | VoiceParticipantLeft participantId =>
      List.filter (other_than participantId) prev
  | VoiceParticipantMuted participantId muted =>
      voice_muted participantId muted prev
  | _ => prev
  end.

(** The state right after [joinCall] obtained the microphone. *)
Definition inCall : VoiceState :=
  mkVoiceState true [] (Some TheMicrophone) [] ∅ ∅.

(** *** Callbacks of the connections *)

(** Everything the component reacts to while mounted: socket events and
    the callbacks of the connections it made ([peerId] is the id the
    callback captured). *)
Inductive Input :=
| FromSocket (ev : VoiceEvent)
| ConnectionLost (peerId : string)
| Track (peerId : string)
| LocalCandidate (peerId : string) (candidate : option IceCandidate).

Definition react (props : Props) (i : Input) (st : VoiceState)
    : VoiceState * list VoiceEffect :=
  match i with
  | FromSocket ev => handle props ev st
  | ConnectionLost peerId => onConnectionLost peerId st
  | Track peerId => onTrack peerId st
  | LocalCandidate peerId candidate => onLocalCandidate peerId candidate st
  end.

Definition runInputs (props : Props) (inputs : list Input) (st : VoiceState)
    : VoiceState * list VoiceEffect :=
  fold_left (λ acc i, let '(st', effs) := react props i acc.1 in
                      (st', acc.2 ++ effs))
            inputs (st, []).

(** Every entry of the map leads to a connection of the store that was
    made for that peer and has not been closed. *)
Definition linked (st : VoiceState) : Prop :=
  ∀ peerId pc, peerConnectionsRef st !! peerId = Some pc →
    ∃ c, connections st !! pc = Some c
         ∧ pc_peerId c = peerId ∧ pc_closed c = false.

(** The offers the roster handler sends: one per member, numbered from
    the first free slot of the store. *)
Definition offersTo (first : nat) (members : list VoiceParticipant) : list VoiceEffect :=
  imap (λ i p, EmitVoiceOffer (vp_id p) (first + i)) members.

(** *** Joining, leaving and muting *)

(** The component with the cells the call buttons use; [trackEnabled] is
    the [enabled] flag of the microphone track. *)
Record Call := mkCall {
  voice : VoiceState;
  isMuted : bool;
  isConnecting : bool;
  trackEnabled : bool
}.

Inductive CallEffect :=
| EmitVoiceJoin
| EmitVoiceLeave
| EmitVoiceMute (muted : bool)
| StopTracks
| Alert.

Definition initialCall : Call :=
  mkCall (mkVoiceState false [] None [] ∅ ∅) false false true.

(** [joinCall], with the outcome of the microphone request; the wait for
    the request is not modelled. *)
Definition joinCall (props : Props) (granted : bool) (c : Call)
    : Call * list CallEffect :=
  match socket props with
  | None => (c, [])
  | Some _ =>
      let st := voice c in
      if granted then
        (mkCall (mkVoiceState true (voiceParticipants st) (Some TheMicrophone)
                              (connections st) (peerConnectionsRef st)
                              (audioElementsRef st))
                (isMuted c) false true,
         [EmitVoiceJoin])
      else (mkCall st (isMuted c) false (trackEnabled c), [Alert])
  end.

(** The [forEach] of [leaveCall].  The source visits the entries in
    insertion order, which the map does not record; the state reached is
    the same in any order. *)
Definition closeList (l : list (string * nat)) (st : VoiceState) : VoiceState :=
  fold_left (λ acc kv, (cleanupPeerConnection kv.1 acc).1) l st.

Definition closeAll (st : VoiceState) : VoiceState :=
  closeList (map_to_list (peerConnectionsRef st)) st.

Definition leaveCall (props : Props) (c : Call) : Call * list CallEffect :=
  match socket props with
  | None => (c, [])
  | Some _ =>
      let st := closeAll (voice c) in
      (mkCall (mkVoiceState false [] None (connections st)
                            (peerConnectionsRef st) (audioElementsRef st))
              false (isConnecting c) (trackEnabled c),
       match localStreamRef (voice c) with
       | Some _ => [StopTracks; EmitVoiceLeave]
       | None => [EmitVoiceLeave]
       end)
  end.

Definition toggleMute (props : Props) (c : Call) : Call * list CallEffect :=
  match socket props, localStreamRef (voice c) with
  | Some _, Some _ =>
      let newMuted := negb (isMuted c) in
      (mkCall (voice c) newMuted (isConnecting c) (negb newMuted),
       [EmitVoiceMute newMuted])
  | _, _ => (c, [])
  end.

(** What the user can do with the two buttons; the call button runs
    [leaveCall] when in the call and [joinCall] otherwise. *)
Inductive UserAction :=
| ClickCall (granted : bool)
| ClickMute.

Definition act (props : Props) (a : UserAction) (c : Call) : Call * list CallEffect :=
  match a with
  | ClickCall granted =>
      if isInCall (voice c) then leaveCall props c else joinCall props granted c
  | ClickMute =>
      if isInCall (voice c) then toggleMute props c else (c, [])
  end.

Definition runActions (props : Props) (actions : list UserAction) (c : Call) : Call :=
  fold_left (λ acc a, (act props a acc).1) actions c.

(** The mute button shows what the microphone does. *)
Definition mute_consistent (c : Call) : Prop :=
  (isInCall (voice c) = true ↔ is_Some (localStreamRef (voice c)))
  ∧ (isInCall (voice c) = false → isMuted c = false)
  ∧ (isInCall (voice c) = true → trackEnabled c = negb (isMuted c)).

End VoiceCall.

(* ===================================================================== *)
(** ** The chat panel and the unread badge of the room page *)
(* ===================================================================== *)

Module ChatPanel.
Import UseRoom.

(** A run of messages shown under one sender heading. *)
Record Group := mkGroup {
  g_senderId : string;
  g_senderName : string;
  g_messages : list ChatMessage
}.

Section Grouping.

(** [new Date(timestamp).getTime()]: milliseconds since the epoch, [None]
    for the not-a-number of an unreadable timestamp. *)
Variable getTime : string → option Q.

(** [getTime(message) - getTime(prev) < 60000]; false when either side is
    not a number. *)
Definition isWithinTime (prev message : ChatMessage) : bool :=
  match getTime (m_timestamp message), getTime (m_timestamp prev) with
  | Some a, Some b => negb (Qle_bool 60000 (a - b))
  | _, _ => false
  end.

(** [isSameSender && isWithinTime], with [prev] the message before this one
    in the array, [None] at index 0. *)
Definition continues (prev : option ChatMessage) (message : ChatMessage) : bool :=
  match prev with
  | Some p => String.eqb (m_senderId p) (m_senderId message) && isWithinTime p message
  | None => false
  end.

(** [groups[groups.length - 1].messages.push(message)]; on an empty array
    the source would throw, which the reducer never reaches. *)
Fixpoint pushToLast (groups : list Group) (message : ChatMessage) : list Group :=
  match groups with
  | [] => []
  | [g] => [mkGroup (g_senderId g) (g_senderName g) (g_messages g ++ [message])]
  | g :: gs => g :: pushToLast gs message
  end.

(** One step of the reducer; the accumulator carries the groups and the
    previous message. *)
Definition addMessage (acc : list Group * option ChatMessage)
    (message : ChatMessage) : list Group * option ChatMessage :=
  (if continues acc.2 message then pushToLast acc.1 message
   else acc.1 ++ [mkGroup (m_senderId message) (m_senderName message) [message]],
   Some message).

Definition groupMessages (messages : list ChatMessage) : list Group :=
  (fold_left addMessage messages ([], None)).1.

End Grouping.

(** The messages of the groups, in display order. *)
Definition flatten (groups : list Group) : list ChatMessage :=
  concat (map g_messages groups).

(** A group has messages, all from the sender of its heading. *)
Definition group_ok (g : Group) : Prop :=
  g_messages g ≠ [] ∧ Forall (λ m, m_senderId m = g_senderId g) (g_messages g).

(** What the reducer keeps true of its accumulator after the messages
    [seen]. *)
Definition reducer_inv (seen : list ChatMessage)
    (acc : list Group * option ChatMessage) : Prop :=
  flatten acc.1 = seen
  ∧ Forall group_ok acc.1
  ∧ acc.2 = last seen
  ∧ (∀ p, acc.2 = Some p →
       ∃ gs g, acc.1 = gs ++ [g] ∧ g_senderId g = m_senderId p).

(** [isFullscreenMode ? messages.slice(-5) : messages] *)
Definition displayMessages (isFullscreenMode : bool)
    (messages : list ChatMessage) : list ChatMessage :=
  if isFullscreenMode then drop (length messages - 5) messages else messages.

(** State cells of the panel. *)
Record PanelState := mkPanel {
  input : jstext;
  showEmojis : bool
}.

Definition handleSubmit (onSendMessage : jstext → Effects) (st : PanelState)
    : PanelState * Effects :=
  if truthy (trim (input st))
  then (mkPanel [] false, onSendMessage (trim (input st)))
  else (st, mkEffects [] []).

Definition handleEmojiClick (onSendMessage : jstext → Effects) (emoji : jstext)
    (st : PanelState) : PanelState * Effects :=
  (mkPanel (input st) false, onSendMessage emoji).

Definition defaultColor : string := "#6366f1".

(** [participants.find(p => p.id === senderId)?.avatarColor || '#6366f1'] *)
Definition getParticipantColor (participants : list Participant)
    (senderId : string) : string :=
  match List.find (λ p, String.eqb (p_id p) senderId) participants with
  | Some p => if String.eqb (p_avatarColor p) "" then defaultColor
              else p_avatarColor p
  | None => defaultColor
  end.

End ChatPanel.

Module RoomPage.
Import UseRoom.

(** The cells of the page behind the unread badge. *)
Record Badge := mkBadge {
  showChat : bool;
  lastSeenMessageCount : Z
}.

Definition initialBadge : Badge := mkBadge true 0.

(** The effect on [showChat] and [messages.length]. *)
Definition markRead (messages : list ChatMessage) (b : Badge) : Badge :=
  if showChat b then mkBadge true (Z.of_nat (length messages)) else b.

(** [onToggleChat] *)
Definition toggleChat (b : Badge) : Badge :=
  mkBadge (negb (showChat b)) (lastSeenMessageCount b).

(** [showChat ? 0 : Math.max(0, messages.length - lastSeenMessageCount)] *)
Definition unreadCount (messages : list ChatMessage) (b : Badge) : Z :=
  if showChat b then 0%Z
  else Z.max 0 (Z.of_nat (length messages) - lastSeenMessageCount b).

(** One socket event seen by the page: the hook commits, then the effect
    runs on the new log. *)
Definition pageStep (sb : RoomState * Badge) (e : Q * ServerEvent)
    : RoomState * Badge :=
  let s' := step sb.1 e in (s', markRead (messages s') sb.2).

Definition pageRun (tr : list (Q * ServerEvent)) (sb : RoomState * Badge)
    : RoomState * Badge :=
  fold_left pageStep tr sb.

(** The chat is opened or closed; the effect runs on the new [showChat]. *)
Definition pageToggle (sb : RoomState * Badge) : RoomState * Badge :=
  (sb.1, markRead (messages sb.1) (toggleChat sb.2)).

End RoomPage.

(* ===================================================================== *)
(** ** Sample rooms, logs and calls *)
(* ===================================================================== *)

Module Samples.
Import UseRoom.

Definition alice : Participant := mkParticipant "a" "Alice" host "#f00" "t0".
Definition bob : Participant := mkParticipant "b" "Bob" guest "#0f0" "t1".
Definition carol : Participant := mkParticipant "c" "Carol" guest "#00f" "t2".


(** A joined room of three, seen by Bob, with Alice as host. *)
Definition room3 : RoomState :=
  run [(1000%Q, RoomJoined bob [alice; bob; carol])] (initial 1000).

Definition hello : ChatMessage :=
  mkChat "m1" "room" "a" "Alice" [0x68; 0x69]%N "t3".
Definition again : ChatMessage :=
  mkChat "m2" "room" "c" "Carol" [0x79; 0x6F]%N "t4".

(** A space followed by a tab. *)
Definition blank : jstext := [0x20; 0x9]%N.

(** Bob's hook in that room, connected. *)
Definition bobs : Hook := mkHook room3 (Some TheSocket).

Definition me : VoiceCall.Props := VoiceCall.mkProps (Some TheSocket) "me" "Me".
Definition vbob : VoiceParticipant := mkVoice "b" "Bob" false.
Definition vme : VoiceParticipant := mkVoice "me" "Me" false.

(** The input line " hi " with the emoji picker open. *)
Definition typed : ChatPanel.PanelState :=
  ChatPanel.mkPanel [0x20; 0x68; 0x69; 0x20]%N true.

(** A paused element at 46.5 s. *)
Definition ahead : VideoPlayer.Player :=
  VideoPlayer.mkPlayer (Some (VideoPlayer.mkVideo 46.5 true 1)) false [].

End Samples.

(* ===================================================================== *)
(** ** Properties of the room reconciler, playback state and chat log *)
(* ===================================================================== *)

Module RoomProofs.
Import UseRoom Samples.

(** *** Replay *)


Lemma run_cons (e : Q * ServerEvent) (tr : list (Q * ServerEvent)) (s : RoomState) :
  run (e :: tr) s = run tr (step s e).
Proof. reflexivity. Qed.

Lemma states_length (tr : list (Q * ServerEvent)) (s : RoomState) :
  length (states tr s) = S (length tr).
Proof. revert s. induction tr as [|e tr IH]; intros s; simpl; auto. Qed.

(** *** Participant ids *)

Lemma string_eqb_true (a b : string) : String.eqb a b = true ↔ a = b.
Proof. apply String.eqb_eq. Qed.

Lemma string_eqb_false (a b : string) : String.eqb a b = false ↔ a ≠ b.
Proof. apply String.eqb_neq. Qed.

Lemma host_changed_ids (h : string) (ps : list Participant) :
  participant_ids (host_changed h ps) = participant_ids ps.
Proof.
  unfold participant_ids, host_changed.
  induction ps as [|p ps IH]; simpl; [reflexivity|]. now rewrite IH.
Qed.

Lemma has_participant_spec (pid : string) (ps : list Participant) :
  has_participant pid ps = true ↔ pid ∈ participant_ids ps.
Proof.
  unfold has_participant, participant_ids.
  induction ps as [|p ps IH]; simpl.
  - split; [discriminate | intros H; inversion H].
  - rewrite orb_true_iff, IH, string_eqb_true, elem_of_cons.
    split; intros [H|H]; auto.
Qed.

Lemma participant_joined_nodup (p : Participant) (ps : list Participant) :
  NoDup (participant_ids ps) → NoDup (participant_ids (participant_joined p ps)).
Proof.
  intros Hnd. unfold participant_joined.
  destruct (has_participant (p_id p) ps) eqn:E; [assumption|].
  unfold participant_ids in *. rewrite map_app. simpl.
  apply NoDup_app. split; [assumption|]. split.
  - intros x Hx Hin. apply list_elem_of_singleton in Hin. subst x.
    apply has_participant_spec in Hx. congruence.
  - apply NoDup_singleton.
Qed.

Lemma participant_left_nodup (pid : string) (ps : list Participant) :
  NoDup (participant_ids ps) → NoDup (participant_ids (participant_left pid ps)).
Proof.
  unfold participant_ids, participant_left.
  induction ps as [|p ps IH]; simpl; intros Hnd; [constructor|].
  apply NoDup_cons in Hnd as [Hp Hnd].
  destruct (negb (String.eqb (p_id p) pid)); simpl; auto.
  apply NoDup_cons. split; auto.
  intros Hin. apply Hp.
  apply list_elem_of_fmap in Hin as (q & Hq & Hin).
  apply list_elem_of_fmap. exists q. split; [assumption|].
  apply list_elem_of_In in Hin. apply filter_In in Hin as [Hin _].
  now apply list_elem_of_In.
Qed.

(** Distinct ids are an invariant of the reconciler: a snapshot with
    distinct ids establishes it and every later event keeps it. *)
Lemma participants_nodup_step (s : RoomState) (e : Q * ServerEvent) :
  (∀ p ps, e.2 = RoomJoined p ps → NoDup (participant_ids ps)) →
  NoDup (participant_ids (participants s)) →
  NoDup (participant_ids (participants (step s e))).
Proof.
  destruct e as [now ev]. intros Hsnap Hnd.
  destruct ev; simpl in *; try assumption.
  - eapply Hsnap; reflexivity.
  - now apply participant_joined_nodup.
  - now apply participant_left_nodup.
  - now rewrite host_changed_ids.
Qed.

(** *** Host changes *)

Lemma step_host_changed (s : RoomState) (t : Q) (h : string) :
  participants (step s (t, RoomHostChanged h)) = host_changed h (participants s).
Proof. reflexivity. Qed.


Lemma hosts_host_changed_absent (h : string) (ps : list Participant) :
  h ∉ participant_ids ps → hosts (host_changed h ps) = [].
Proof.
  unfold hosts, host_changed, participant_ids.
  induction ps as [|p ps IH]; simpl; intros Hn; [reflexivity|].
  apply not_elem_of_cons in Hn as [Hne Hn].
  destruct (String.eqb (p_id p) h) eqn:E.
  - apply string_eqb_true in E. congruence.
  - simpl. auto.
Qed.

(** As many hosts as entries carrying the named id. *)
Lemma hosts_host_changed_length (h : string) (ps : list Participant) :
  length (hosts (host_changed h ps))
  = length (List.filter (λ p, String.eqb (p_id p) h) ps).
Proof.
  unfold hosts, host_changed.
  induction ps as [|p ps IH]; simpl; [reflexivity|].
  destruct (String.eqb (p_id p) h); simpl; now rewrite IH.
Qed.


Lemma host_changed_roles (h : string) (ps : list Participant) (p : Participant) :
  p ∈ host_changed h ps → (p_role p = host ↔ p_id p = h).
Proof.
  unfold host_changed. intros Hin.
  apply list_elem_of_fmap in Hin as (q & -> & _). simpl.
  destruct (String.eqb (p_id q) h) eqn:E.
  - apply string_eqb_true in E. tauto.
  - apply string_eqb_false in E. split; [discriminate | tauto].
Qed.




(** *** Media change *)

(** C7.  Whatever the playback state was, one run of the media-changed
    handler leaves it at paused, position 0, rate 1 (stamped with the
    current clock), and the same commit puts the new url and type into
    the room info. *)
Theorem media_changed_resets_playback
    (s : RoomState) (now : Q) (url : string) (ty : MediaType) :
  let s' := step s (now, MediaChanged url ty) in
  playbackState s' = mkPlayback false 0 1 now
  ∧ roomInfo s' = media_changed url ty (roomInfo s)
  ∧ r_mediaUrl <$> roomInfo s' = (λ _, url) <$> roomInfo s
  ∧ r_mediaType <$> roomInfo s' = (λ _, ty) <$> roomInfo s
  ∧ length (List.filter writes_roomInfo (on now (MediaChanged url ty))) = 1
  ∧ length (List.filter writes_playback (on now (MediaChanged url ty))) = 1
  ∧ participants s' = participants s ∧ messages s' = messages s.
Proof.
  simpl. repeat split; destruct (roomInfo s); reflexivity.
Qed.

(** *** Chat log *)

Lemma step_chat_message (s : RoomState) (t : Q) (m : ChatMessage) :
  messages (step s (t, ChatMessageEvent m)) = messages s ++ [m].
Proof. reflexivity. Qed.

Lemma run_live_messages (lives : list (Q * ChatMessage)) (s : RoomState) :
  messages (run (live_messages lives) s) = messages s ++ map snd lives.
Proof.
  revert s. induction lives as [|[t m] lives IH]; intros s.
  - simpl. now rewrite app_nil_r.
  - unfold live_messages. simpl map. rewrite run_cons.
    fold (live_messages lives). rewrite IH, step_chat_message.
    now rewrite <- app_assoc.
Qed.

(** The claim of C3 fails: a message delivered again after the history
    that already holds it is appended a second time, and the log then
    has a duplicate id. *)
Lemma chat_repeat_is_appended :
  let s := run [(1000%Q, ChatHistory [hello]); (2000%Q, ChatMessageEvent hello)]
               (initial 0) in
  messages s = [hello; hello] ∧ ¬ NoDup (message_ids (messages s)).
Proof.
  split; [reflexivity|]. vm_compute. intros Hnd.
  apply NoDup_cons in Hnd as [Hnotin _]. apply Hnotin. apply list_elem_of_here.
Qed.

(** C3, amended.  A live message is always appended at the end of the
    log, and a history event replaces the log; so after a history
    followed by live messages the log is the history followed by those
    messages in arrival order, and it is free of duplicate ids exactly
    when history and live messages carry pairwise distinct ids. *)
Theorem chat_log_is_history_then_lives
    (s : RoomState) (t : Q) (history : list ChatMessage)
    (lives : list (Q * ChatMessage)) :
  let s' := run ((t, ChatHistory history) :: live_messages lives) s in
  messages s' = history ++ map snd lives
  ∧ (NoDup (message_ids (messages s'))
     ↔ NoDup (message_ids history)
       ∧ (∀ i, i ∈ message_ids history → i ∉ message_ids (map snd lives))
       ∧ NoDup (message_ids (map snd lives))).
Proof.
  intros s'.
  assert (Hs' : messages s' = history ++ map snd lives).
  { subst s'. rewrite run_cons, run_live_messages. reflexivity. }
  split; [exact Hs'|].
  rewrite Hs'. unfold message_ids. rewrite map_app. apply NoDup_app.
Qed.

(** *** Playback timestamps *)

Lemma step_playback_stamp (s : RoomState) (e : Q * ServerEvent) :
  is_playback_event e.2 = true →
  lastUpdated (playbackState (step s e)) = stamp e.
Proof. destruct e as [now ev]. destruct ev; simpl; intros H; try discriminate; reflexivity. Qed.

Lemma lastUpdated_trace_stamps (tr : list (Q * ServerEvent)) (s : RoomState) :
  Forall (λ e, is_playback_event e.2 = true) tr →
  lastUpdated_trace tr s = lastUpdated (playbackState s) :: map stamp tr.
Proof.
  unfold lastUpdated_trace.
  revert s. induction tr as [|e tr IH]; intros s Hall; simpl; [reflexivity|].
  apply Forall_cons in Hall as [He Hall].
  rewrite (IH _ Hall). now rewrite step_playback_stamp.
Qed.

(** The claim of C8 fails: the local clock only moves forward here, yet
    a sync whose payload carries an older timestamp moves [lastUpdated]
    back from 2000 to 1500. *)
Lemma sync_moves_lastUpdated_back :
  lastUpdated_trace
    [(2000%Q, PlaybackPlay 5); (3000%Q, PlaybackSync (mkPlayback true 5 1 1500))]
    (initial 1000)
  = [1000; 2000; 1500]%Q
  ∧ ¬ nondecreasing 1000 [2000; 1500]%Q.
Proof.
  split; [reflexivity|]. simpl. intros (_ & H & _). revert H. now vm_compute.
Qed.

(** C8, amended.  Play, pause and seek stamp the state with the local
    clock and sync installs the payload's own timestamp; so along a
    sequence of playback events [lastUpdated] never decreases exactly
    when those stamps, taken in order from the starting value, never
    decrease. *)
Theorem lastUpdated_monotone_iff_stamps
    (s : RoomState) (tr : list (Q * ServerEvent)) :
  Forall (λ e, is_playback_event e.2 = true) tr →
  lastUpdated_trace tr s = lastUpdated (playbackState s) :: map stamp tr
  ∧ (nondecreasing (lastUpdated (playbackState s)) (tail (lastUpdated_trace tr s))
     ↔ nondecreasing (lastUpdated (playbackState s)) (map stamp tr)).
Proof.
  intros Hall. rewrite (lastUpdated_trace_stamps tr s Hall). split; reflexivity.
Qed.

Lemma lastUpdated_monotone_iff_stamps_witness :
  let tr := [(2000%Q, PlaybackPlay 5);
             (3000%Q, PlaybackSync (mkPlayback true 6 1 2500));
             (4000%Q, PlaybackPause 7); (4000%Q, PlaybackSeek 9)] in
  Forall (λ e, is_playback_event e.2 = true) tr
  ∧ lastUpdated_trace tr room3 = [1000; 2000; 2500; 4000; 4000]%Q.
Proof.
  intros tr.
  assert (Hall : Forall (λ e, is_playback_event e.2 = true) tr).
  { repeat constructor. }
  split; [exact Hall|].
  exact (proj1 (lastUpdated_monotone_iff_stamps room3 tr Hall)).
Defined.

(** *** Sending chat messages *)

Lemma trimStart_nil (s : jstext) :
  trimStart s = [] ↔ Forall (λ c, isWhiteSpace c = true) s.
Proof.
  induction s as [|c s IH]; simpl.
  - split; [constructor | reflexivity].
  - destruct (isWhiteSpace c) eqn:E.
    + rewrite IH. split; [now constructor | now inversion 1].
    + split; [discriminate | inversion 1; congruence].
Qed.

Lemma trimStart_head (s : jstext) :
  trimStart s = [] ∨ ∃ c s', trimStart s = c :: s' ∧ isWhiteSpace c = false.
Proof.
  induction s as [|c s IH]; simpl; [now left|].
  destruct (isWhiteSpace c) eqn:E; [exact IH|]. right. eauto.
Qed.

(** The trimmed text is empty exactly for texts made of white space. *)
Lemma trim_nil (s : jstext) :
  trim s = [] ↔ Forall (λ c, isWhiteSpace c = true) s.
Proof.
  unfold trim, trimEnd. rewrite <- trimStart_nil.
  split.
  - intros H. apply (f_equal (@rev N)) in H. rewrite rev_involutive in H.
    simpl in H. apply trimStart_nil in H. apply Forall_rev in H.
    rewrite rev_involutive in H.
    destruct (trimStart_head s) as [E|(c & s' & E & Hc)]; [exact E|].
    rewrite E in H. inversion H; congruence.
  - intros ->. reflexivity.
Qed.

(** C10.  When the trimmed content is empty [sendMessage] does nothing;
    a command is put on the socket only if the trimmed content is
    non-empty and there is a socket, it is then the one chat command
    carrying the content, and no state cell is ever written. *)
Theorem sendMessage_blank_is_noop (h : Hook) (content : jstext) :
  (trim content = [] → sendMessage h content = mkEffects [] [])
  ∧ (emitted (sendMessage h content) ≠ []
     ↔ trim content ≠ [] ∧ is_Some (socketRef h))
  ∧ (trim content ≠ [] → is_Some (socketRef h) →
     emitted (sendMessage h content) = [EmitChatSend content])
  ∧ updates (sendMessage h content) = [].
Proof.
  unfold sendMessage.
  destruct (trim content) as [|c w] eqn:Et; destruct (socketRef h) as [sock|]; cbn;
    repeat split; try congruence; eauto.
  - intros [H _]. congruence.
  - intros [H _]. congruence.
  - intros [_ [x Hx]]. discriminate.
  - intros _ [x Hx]. discriminate.
Qed.

Lemma sendMessage_blank_is_noop_witness :
  trim blank = []
  ∧ sendMessage bobs blank = mkEffects [] [].
Proof.
  split; [reflexivity|].
  apply (proj1 (sendMessage_blank_is_noop bobs blank)).
  reflexivity.
Defined.

(** *** Membership *)

Lemma participant_joined_present (p : Participant) (ps : list Participant) :
  p_id p ∈ participant_ids (participant_joined p ps).
Proof.
  unfold participant_joined.
  destruct (has_participant (p_id p) ps) eqn:E.
  - now apply has_participant_spec.
  - unfold participant_ids. rewrite map_app, elem_of_app. right.
    apply list_elem_of_here.
Qed.

(** Along any replay whose snapshots carry distinct ids, the participant
    list keeps distinct ids. *)
Theorem participant_ids_stay_distinct
    (tr : list (Q * ServerEvent)) (s : RoomState) :
  Forall snapshot_distinct tr →
  NoDup (participant_ids (participants s)) →
  NoDup (participant_ids (participants (run tr s))).
Proof.
  revert s. induction tr as [|e tr IH]; intros s Hall Hnd; [exact Hnd|].
  apply Forall_cons in Hall as [He Hall].
  rewrite run_cons. apply IH; [exact Hall|].
  apply participants_nodup_step; [|exact Hnd].
  intros p ps Heq. unfold snapshot_distinct in He. now rewrite Heq in He.
Qed.

Lemma participant_ids_stay_distinct_witness :
  let tr := [(2000%Q, RoomParticipantJoined carol);
             (3000%Q, RoomHostChanged "c");
             (4000%Q, RoomParticipantLeft "a");
             (5000%Q, RoomJoined bob [bob; carol])] in
  Forall snapshot_distinct tr
  ∧ NoDup (participant_ids (participants (run tr room3))).
Proof.
  intros tr.
  assert (Hnd2 : NoDup ["b"; "c"]).
  { repeat constructor; intros Hin;
      repeat (apply elem_of_cons in Hin as [Hin|Hin]; [discriminate|]);
      inversion Hin. }
  assert (Hall : Forall snapshot_distinct tr).
  { subst tr. repeat (constructor; [first [exact I | exact Hnd2]|]).
    constructor. }
  split; [exact Hall|].
  apply (participant_ids_stay_distinct tr room3 Hall).
  vm_compute. repeat constructor; intros Hin;
    repeat (apply elem_of_cons in Hin as [Hin|Hin]; [discriminate|]);
    inversion Hin.
Defined.

(** A participant-joined event puts the id on the list, and a later
    delivery for the same id, whatever else it carries, changes nothing. *)
Theorem participant_joined_duplicate_ignored
    (p q : Participant) (ps : list Participant) :
  p_id q = p_id p →
  p_id p ∈ participant_ids (participant_joined p ps)
  ∧ participant_joined q (participant_joined p ps) = participant_joined p ps.
Proof.
  intros Hid. split; [apply participant_joined_present|].
  unfold participant_joined at 1.
  rewrite Hid.
  now rewrite (proj2 (has_participant_spec _ _) (participant_joined_present p ps)).
Qed.

Lemma participant_joined_duplicate_ignored_witness :
  let renamed := mkParticipant "c" "Caroline" host "#fff" "t9" in
  p_id renamed = p_id carol
  ∧ participant_joined renamed (participant_joined carol [alice; bob])
    = [alice; bob; carol].
Proof.
  intros renamed. split; [reflexivity|].
  exact (proj2 (participant_joined_duplicate_ignored carol renamed [alice; bob] eq_refl)).
Defined.

Lemma participant_left_absent (pid : string) (ps : list Participant) :
  pid ∉ participant_ids ps → participant_left pid ps = ps.
Proof.
  unfold participant_left, participant_ids.
  induction ps as [|p ps IH]; simpl; intros Hn; [reflexivity|].
  apply not_elem_of_cons in Hn as [Hne Hn].
  destruct (String.eqb (p_id p) pid) eqn:E.
  - apply String.eqb_eq in E. congruence.
  - simpl. now rewrite IH.
Qed.

Lemma participant_left_app (pid : string) (ps qs : list Participant) :
  participant_left pid (ps ++ qs) = participant_left pid ps ++ participant_left pid qs.
Proof. unfold participant_left. apply List.filter_app. Qed.

Lemma participant_left_sublist (pid : string) (ps : list Participant) :
  sublist (participant_left pid ps) ps.
Proof.
  unfold participant_left. induction ps as [|p ps IH]; simpl; [constructor|].
  destruct (negb (String.eqb (p_id p) pid)); simpl; now constructor.
Qed.

Lemma participant_left_filter (pid : string) (ps : list Participant) :
  participant_left pid ps = filter (λ q, p_id q ≠ pid) ps.
Proof.
  unfold participant_left. induction ps as [|p ps IH]; simpl; [reflexivity|].
  destruct (String.eqb (p_id p) pid) eqn:E; simpl.
  - apply String.eqb_eq in E. rewrite filter_cons_False; [exact IH|]. tauto.
  - apply String.eqb_neq in E. rewrite filter_cons_True by exact E. now rewrite IH.
Qed.

(** A participant-left event removes every entry with that id and no
    other entry, and keeps the remaining entries in their order: the
    result is the list with the entries of that id struck out.  With
    distinct ids this is the list around the one entry.  Applying the
    event again, or for an id that is not listed, changes nothing. *)
Theorem participant_left_removes (pid : string) (ps : list Participant) :
  participant_left pid ps = filter (λ q, p_id q ≠ pid) ps
  ∧ sublist (participant_left pid ps) ps
  ∧ (pid ∉ participant_ids (participant_left pid ps))
  ∧ (∀ q, q ∈ participant_left pid ps ↔ q ∈ ps ∧ p_id q ≠ pid)
  ∧ (∀ l1 p l2, ps = l1 ++ p :: l2 → p_id p = pid →
       pid ∉ participant_ids l1 → pid ∉ participant_ids l2 →
       participant_left pid ps = l1 ++ l2)
  ∧ participant_left pid (participant_left pid ps) = participant_left pid ps
  ∧ (pid ∉ participant_ids ps → participant_left pid ps = ps).
Proof.
  assert (Hmem : ∀ q, q ∈ participant_left pid ps ↔ q ∈ ps ∧ p_id q ≠ pid).
  { intros q. unfold participant_left.
    rewrite !list_elem_of_In, filter_In, negb_true_iff, String.eqb_neq. tauto. }
  assert (Hgone : pid ∉ participant_ids (participant_left pid ps)).
  { intros Hin. apply list_elem_of_fmap in Hin as (q & Hq & Hin).
    apply Hmem in Hin as [_ Hne]. congruence. }
  split; [apply participant_left_filter|].
  split; [apply participant_left_sublist|].
  split; [exact Hgone|]. split; [exact Hmem|].
  split; [|split].
  - intros l1 p l2 -> Hp H1 H2.
    rewrite participant_left_app, (participant_left_absent _ _ H1).
    unfold participant_left at 1. simpl.
    rewrite (proj2 (String.eqb_eq _ _) Hp). simpl.
    fold (participant_left pid l2). now rewrite (participant_left_absent _ _ H2).
  - now apply participant_left_absent.
  - apply participant_left_absent.
Qed.

(** Joining and then leaving gives back the list as it was, for a
    participant whose id was not listed before. *)
Theorem joined_then_left_restores (p : Participant) (ps : list Participant) :
  p_id p ∉ participant_ids ps →
  participant_left (p_id p) (participant_joined p ps) = ps.
Proof.
  intros Hn. unfold participant_joined.
  destruct (has_participant (p_id p) ps) eqn:E.
  - apply has_participant_spec in E. contradiction.
  - rewrite participant_left_app, (participant_left_absent _ _ Hn).
    unfold participant_left. simpl. rewrite String.eqb_refl. simpl.
    apply app_nil_r.
Qed.

Lemma joined_then_left_restores_witness :
  ("c" ∉ participant_ids [alice; bob])
  ∧ participant_left "c" (participant_joined carol [alice; bob]) = [alice; bob].
Proof.
  assert (Hn : "c" ∉ participant_ids [alice; bob]).
  { intros Hin. repeat (apply elem_of_cons in Hin as [Hin|Hin]; [discriminate|]).
    inversion Hin. }
  split; [exact Hn|]. exact (joined_then_left_restores carol [alice; bob] Hn).
Defined.

(** *** Host changes, continued *)

Lemma host_changed_twice (h1 h2 : string) (ps : list Participant) :
  host_changed h2 (host_changed h1 ps) = host_changed h2 ps.
Proof.
  unfold host_changed. rewrite map_map. apply map_ext. intros p. reflexivity.
Qed.

Lemma run_host_changes_snoc (l : list (Q * string)) (t : Q) (h : string)
    (s : RoomState) :
  participants (run (host_changes (l ++ [(t, h)])) s)
  = host_changed h (participants s).
Proof.
  revert s. induction l as [|[t1 h1] l IH]; intros s; [reflexivity|].
  simpl app. unfold host_changes. simpl map. rewrite run_cons.
  fold (host_changes (l ++ [(t, h)])). rewrite IH, step_host_changed.
  apply host_changed_twice.
Qed.

(** After any sequence of host-changed events the roles are those the last
    event alone would give: earlier events leave no trace, and names,
    colours, join times and order of the entries are as before. *)
Theorem host_changes_last_wins
    (s : RoomState) (l : list (Q * string)) (t : Q) (h : string) :
  let s' := run (host_changes (l ++ [(t, h)])) s in
  participants s' = host_changed h (participants s)
  ∧ map (λ p, with_role p guest) (participants s')
    = map (λ p, with_role p guest) (participants s).
Proof.
  simpl. rewrite run_host_changes_snoc. split; [reflexivity|].
  unfold host_changed. rewrite map_map. apply map_ext. intros p. reflexivity.
Qed.

(** A host-changed event that names an id not on the list leaves the room
    without any host. *)
Theorem host_changed_absent_leaves_no_host
    (s : RoomState) (l : list (Q * string)) (t : Q) (h : string) :
  h ∉ participant_ids (participants s) →
  hosts (participants (run (host_changes (l ++ [(t, h)])) s)) = [].
Proof.
  intros Hn. rewrite run_host_changes_snoc. now apply hosts_host_changed_absent.
Qed.

Lemma host_changed_absent_leaves_no_host_witness :
  ("z" ∉ participant_ids (participants room3))
  ∧ hosts (participants (run (host_changes [(2000%Q, "b"); (3000%Q, "z")]) room3)) = [].
Proof.
  assert (Hn : "z" ∉ participant_ids (participants room3)).
  { vm_compute. intros Hin.
    repeat (apply elem_of_cons in Hin as [Hin|Hin]; [discriminate|]).
    inversion Hin. }
  split; [exact Hn|].
  exact (host_changed_absent_leaves_no_host room3 [(2000%Q, "b")] 3000%Q "z" Hn).
Defined.

(** The local participant follows a host-changed event: it is host
    afterwards exactly when the event names its id, nothing else about it
    changes, and its role agrees with the role of its entries on the list. *)
Theorem local_role_follows_host_changed
    (s : RoomState) (t : Q) (h : string) (p : Participant) :
  currentParticipant s = Some p →
  let s' := step s (t, RoomHostChanged h) in
  (isHost s' = true ↔ p_id p = h)
  ∧ currentParticipant s' = Some (with_role p (if isHost s' then host else guest))
  ∧ (∀ q, q ∈ participants s' → p_id q = p_id p →
       p_role q = if isHost s' then host else guest).
Proof.
  intros Hp. simpl. unfold isHost. simpl. rewrite Hp. simpl.
  destruct (String.eqb (p_id p) h) eqn:E.
  - apply String.eqb_eq in E.
    destruct p as [i n [] c j]; simpl in *; (split; [tauto|]); (split; [reflexivity|]);
      intros q Hq Hid; apply host_changed_roles in Hq; apply Hq; congruence.
  - apply String.eqb_neq in E.
    destruct p as [i n [] c j]; simpl in *;
      (split; [split; [discriminate|contradiction]|]); (split; [reflexivity|]);
      intros q Hq Hid; apply host_changed_roles in Hq;
      destruct (p_role q); [exfalso; apply E; rewrite <- Hid; now apply Hq | reflexivity
                           |exfalso; apply E; rewrite <- Hid; now apply Hq | reflexivity].
Qed.

Lemma local_role_follows_host_changed_witness :
  currentParticipant room3 = Some bob
  ∧ isHost (step room3 (2000%Q, RoomHostChanged "b")) = true.
Proof.
  split; [reflexivity|].
  apply (proj1 (local_role_follows_host_changed room3 2000%Q "b" bob eq_refl)).
  reflexivity.
Defined.

(** *** Transport events *)

(** Relayed play, pause and seek events never change the playback rate,
    and they leave the participants, the room info and the chat log alone. *)
Theorem transport_events_keep_rate
    (tr : list (Q * ServerEvent)) (s : RoomState) :
  Forall (λ e, is_transport_event e.2 = true) tr →
  let s' := run tr s in
  playbackRate (playbackState s') = playbackRate (playbackState s)
  ∧ participants s' = participants s
  ∧ currentParticipant s' = currentParticipant s
  ∧ roomInfo s' = roomInfo s
  ∧ messages s' = messages s.
Proof.
  revert s. induction tr as [|[t ev] tr IH]; intros s Hall; [simpl; auto 6|].
  apply Forall_cons in Hall as [He Hall].
  cbv zeta. rewrite run_cons.
  destruct (IH (step s (t, ev)) Hall) as (H1 & H2 & H3 & H4 & H5).
  rewrite H1, H2, H3, H4, H5.
  destruct ev; simpl in He; try discriminate; simpl; auto 6.
Qed.

Lemma transport_events_keep_rate_witness :
  let tr := [(2000%Q, PlaybackPlay 5); (3000%Q, PlaybackSeek 60);
             (4000%Q, PlaybackPause 61)] in
  Forall (λ e, is_transport_event e.2 = true) tr
  ∧ playbackRate (playbackState (run tr room3)) = 1%Q.
Proof.
  intros tr.
  assert (Hall : Forall (λ e, is_transport_event e.2 = true) tr).
  { repeat constructor. }
  split; [exact Hall|].
  exact (proj1 (transport_events_keep_rate tr room3 Hall)).
Defined.

End RoomProofs.

(* ===================================================================== *)
(** ** Properties of the video player *)
(* ===================================================================== *)

Module PlayerProofs.
Import UseRoom VideoPlayer Samples.

Lemma gtb_true (a b : Q) : gtb a b = true ↔ (b < a)%Q.
Proof.
  unfold gtb. rewrite negb_true_iff.
  split.
  - intros H. apply Qnot_le_lt. intros Hle.
    apply Qle_bool_iff in Hle. congruence.
  - intros Hlt. destruct (Qle_bool a b) eqn:E; [|reflexivity].
    apply Qle_bool_iff in E. exfalso. exact (Qlt_not_le _ _ Hlt E).
Qed.

Lemma gtb_false (a b : Q) : gtb a b = false ↔ (a <= b)%Q.
Proof.
  unfold gtb. rewrite negb_false_iff. apply Qle_bool_iff.
Qed.

(** Only the seek step writes the position. *)
Lemma syncOps_time (now : Q) (video : Video) (ps : PlaybackState) :
  v_currentTime (fold_left apply_op (syncOps now video ps) video)
  = if gtb (drift now video ps) SYNC_THRESHOLD then expectedTime now ps
    else v_currentTime video.
Proof.
  unfold syncOps, seekOps, playPauseOps, rateOps.
  destruct (gtb _ _), (isPlaying ps), (v_paused video),
    (Qeq_bool (v_playbackRate video) (playbackRate ps)); reflexivity.
Qed.

Lemma playPauseOps_no_seek (video : Video) (ps : PlaybackState) (t : Q) :
  SetCurrentTime t ∉ playPauseOps video ps.
Proof.
  unfold playPauseOps. intros Hin.
  destruct (isPlaying ps), (v_paused video); simpl in Hin;
    repeat (apply elem_of_cons in Hin as [Hin|Hin]; [discriminate|]);
    inversion Hin.
Qed.

Lemma rateOps_no_seek (video : Video) (ps : PlaybackState) (t : Q) :
  SetCurrentTime t ∉ rateOps video ps.
Proof.
  unfold rateOps. intros Hin.
  destruct (Qeq_bool _ _); simpl in Hin;
    repeat (apply elem_of_cons in Hin as [Hin|Hin]; [discriminate|]);
    inversion Hin.
Qed.

Lemma syncOps_seek (now : Q) (video : Video) (ps : PlaybackState) (t : Q) :
  SetCurrentTime t ∈ syncOps now video ps
  ↔ t = expectedTime now ps ∧ gtb (drift now video ps) SYNC_THRESHOLD = true.
Proof.
  unfold syncOps. rewrite !elem_of_app. unfold seekOps.
  split.
  - intros [Hin|[Hin|Hin]].
    + destruct (gtb _ _); [|inversion Hin].
      apply list_elem_of_singleton in Hin. inversion Hin. auto.
    + now apply playPauseOps_no_seek in Hin.
    + now apply rateOps_no_seek in Hin.
  - intros [-> ->]. left. apply list_elem_of_here.
Qed.

(** With the clock [delta] seconds past the snapshot's timestamp, a
    playing snapshot at position [P] is expected at [P + delta]. *)
Lemma expectedTime_playing (now delta : Q) (ps : PlaybackState) :
  isPlaying ps = true → (now == lastUpdated ps + 1000 * delta)%Q →
  (expectedTime now ps == currentTime ps + delta)%Q.
Proof.
  intros Hp Hnow. unfold expectedTime, timeSinceUpdate. rewrite Hp, Hnow. field.
Qed.

Lemma expectedTime_paused (now : Q) (ps : PlaybackState) :
  isPlaying ps = false → expectedTime now ps = currentTime ps.
Proof. unfold expectedTime. now intros ->. Qed.

(** C2.  For an element showing a loaded medium, the sync step expects
    position [P + (now - T)] for a playing snapshot (the elapsed wall
    clock, read in milliseconds, counted in seconds) and [P] for a
    paused one; it writes that position to the element exactly when the
    local position is more than 2 seconds away from it, and leaves the
    position alone otherwise. *)
Theorem sync_effect_corrects_drift
    (now : Q) (mediaUrl : string) (ps : PlaybackState) (pl : Player) (video : Video) :
  videoRef pl = Some video → mediaUrl ≠ "" →
  let expected := (if isPlaying ps
                   then currentTime ps + (now - lastUpdated ps) / 1000
                   else currentTime ps)%Q in
  let d := Qabs (v_currentTime video - expected) in
  expectedTime now ps = expected
  ∧ (SetCurrentTime expected ∈ syncOps now video ps ↔ (2 < d)%Q)
  ∧ (∀ t, SetCurrentTime t ∈ syncOps now video ps → t = expected)
  ∧ ((d <= 2)%Q → ∀ t, SetCurrentTime t ∉ syncOps now video ps)
  ∧ ∃ video', videoRef (syncEffect now mediaUrl ps pl) = Some video'
      ∧ ((2 < d)%Q → v_currentTime video' = expected)
      ∧ ((d <= 2)%Q → v_currentTime video' = v_currentTime video).
Proof.
  intros Hv Hurl expected d.
  assert (He : expectedTime now ps = expected) by reflexivity.
  assert (Hd : drift now video ps = d) by reflexivity.
  split; [exact He|]. split; [|split; [|split]].
  - rewrite syncOps_seek, Hd, gtb_true. unfold SYNC_THRESHOLD. tauto.
  - intros t Ht. apply syncOps_seek in Ht. destruct Ht as [-> _]. exact He.
  - intros Hle t Ht. apply syncOps_seek in Ht as [_ Hgt].
    rewrite Hd in Hgt. apply gtb_true in Hgt.
    exact (Qlt_not_le _ _ Hgt Hle).
  - exists (fold_left apply_op (syncOps now video ps) video).
    split.
    + unfold syncEffect. rewrite Hv.
      destruct (String.eqb mediaUrl "") eqn:E; [|reflexivity].
      apply String.eqb_eq in E. contradiction.
    + rewrite syncOps_time, Hd, He. split; intros H.
      * apply gtb_true in H. unfold SYNC_THRESHOLD. now rewrite H.
      * apply gtb_false in H. unfold SYNC_THRESHOLD. now rewrite H.
Qed.

(** The host paused at 42.0 s; the local element is at 46.5 s: the drift
    of 4.5 s is over the threshold and the element is put at 42.0 s. *)
Lemma sync_effect_corrects_drift_witness :
  videoRef ahead = Some (mkVideo 46.5 true 1) ∧ "movie.mp4" ≠ ""
  ∧ SetCurrentTime 42 ∈ syncOps 1000 (mkVideo 46.5 true 1) (mkPlayback false 42 1 1000).
Proof.
  split; [reflexivity|]. split; [discriminate|].
  pose proof (sync_effect_corrects_drift 1000 "movie.mp4"
                (mkPlayback false 42 1 1000) ahead (mkVideo 46.5 true 1)
                eq_refl ltac:(discriminate)) as (_ & Hseek & _).
  apply Hseek. reflexivity.
Defined.

(** *** Who may send playback commands *)

(** The claim of C4 fails: Bob is a guest, his hook has a socket, and
    each of [play], [pause] and [seek] puts its command on the socket. *)
Lemma guest_constructors_emit :
  isHost (state bobs) = false
  ∧ emitted (play bobs 10) = [EmitPlaybackPlay 10]
  ∧ emitted (pause bobs 10) = [EmitPlaybackPause 10]
  ∧ emitted (seek bobs 10) = [EmitPlaybackSeek 10].
Proof. repeat split. Qed.

(** C4, amended.  When the local role is not host, the element event
    handlers of the player, wired to the hook as the room page does,
    send nothing: the role is checked there.  The constructors [play],
    [pause] and [seek] check only that a socket exists. *)
Theorem non_host_player_events_send_nothing (h : Hook) (pl : Player) :
  isHost (state h) = false →
  pageOnPlay h pl = noEffects
  ∧ pageOnPause h pl = noEffects
  ∧ pageOnSeeked h pl = noEffects
  ∧ (∀ t, emitted (play h t) ≠ [] ↔ is_Some (socketRef h))
  ∧ (∀ t, emitted (pause h t) ≠ [] ↔ is_Some (socketRef h))
  ∧ (∀ t, emitted (seek h t) ≠ [] ↔ is_Some (socketRef h)).
Proof.
  intros Hrole.
  unfold pageOnPlay, pageOnPause, pageOnSeeked, handlePlay, handlePause,
    handleSeek, handleEvent, play, pause, seek.
  rewrite Hrole.
  destruct (videoRef pl), (socketRef h); simpl;
    repeat split; try congruence; eauto;
    try (intros [x Hx]; discriminate).
Qed.

Lemma non_host_player_events_send_nothing_witness :
  isHost (state bobs) = false ∧ pageOnPlay bobs ahead = noEffects.
Proof.
  split; [reflexivity|].
  exact (proj1 (non_host_player_events_send_nothing bobs ahead eq_refl)).
Defined.

(** *** What the sync effect writes *)

Lemma syncEffect_video (now : Q) (mediaUrl : string) (ps : PlaybackState)
    (pl : Player) (video : Video) :
  videoRef pl = Some video → mediaUrl ≠ "" →
  syncEffect now mediaUrl ps pl
  = mkPlayer (Some (fold_left apply_op (syncOps now video ps) video)) true
             (timers pl ++ [(now + 100)%Q]).
Proof.
  intros Hv Hurl. unfold syncEffect. rewrite Hv.
  destruct (String.eqb mediaUrl "") eqn:E; [|reflexivity].
  apply String.eqb_eq in E. contradiction.
Qed.

Lemma Qeq_bool_false (a b : Q) : Qeq_bool a b = false ↔ ¬ (a == b)%Q.
Proof.
  split.
  - intros E H. apply Qeq_bool_iff in H. congruence.
  - intros H. destruct (Qeq_bool a b) eqn:E; [|reflexivity].
    apply Qeq_bool_iff in E. contradiction.
Qed.

(** The sync effect asks nothing of an element that already agrees with
    the snapshot, and only of such an element: its list of writes is empty
    exactly when the position is within 2 seconds of the expected one, the
    element is paused exactly when the snapshot is not playing, and the
    rates are equal.  Each write it does ask for aims at that agreement:
    [play()] only of a paused element under a playing snapshot, [pause()]
    only of a playing element under a paused snapshot, and only the
    snapshot's rate is written. *)
Theorem sync_effect_writes_on_disagreement
    (now : Q) (video : Video) (ps : PlaybackState) :
  (syncOps now video ps = []
   ↔ (drift now video ps <= SYNC_THRESHOLD)%Q
     ∧ v_paused video = negb (isPlaying ps)
     ∧ (v_playbackRate video == playbackRate ps)%Q)
  ∧ (CallPlay ∈ syncOps now video ps
     ↔ isPlaying ps = true ∧ v_paused video = true)
  ∧ (CallPause ∈ syncOps now video ps
     ↔ isPlaying ps = false ∧ v_paused video = false)
  ∧ (∀ r, SetPlaybackRate r ∈ syncOps now video ps
     ↔ r = playbackRate ps ∧ ¬ (v_playbackRate video == playbackRate ps)%Q).
Proof.
  pose proof (gtb_false (drift now video ps) SYNC_THRESHOLD) as Hle.
  pose proof (Qeq_bool_iff (v_playbackRate video) (playbackRate ps)) as Heq.
  pose proof (Qeq_bool_false (v_playbackRate video) (playbackRate ps)) as Hne.
  unfold syncOps, seekOps, playPauseOps, rateOps.
  destruct (gtb (drift now video ps) SYNC_THRESHOLD), (isPlaying ps),
    (v_paused video), (Qeq_bool (v_playbackRate video) (playbackRate ps));
    simpl; (split; [|split; [|split]]); try intros r;
    rewrite ?elem_of_cons, ?elem_of_nil;
    try (intuition (first [discriminate | congruence])).
  all: split;
    [ intros H; repeat destruct H as [H|H];
      try discriminate; try contradiction;
      try (inversion H; subst; intuition)
    | intuition congruence ].
Qed.

(** *** The re-entrancy guard *)


Lemma dispatch_host (h : Hook) (pl : Player) (video : Video) (ev : ElementEvent) :
  isHost (state h) = true → is_Some (socketRef h) →
  videoRef pl = Some video → isSyncingRef pl = false →
  emitted (dispatch h pl ev)
  = [match ev with
     | EvPlay => EmitPlaybackPlay (v_currentTime video)
     | EvPause => EmitPlaybackPause (v_currentTime video)
     | EvSeeked => EmitPlaybackSeek (v_currentTime video)
     end].
Proof.
  intros Hh [sock Hs] Hv Hsync. destruct ev; simpl;
    unfold pageOnPlay, pageOnPause, pageOnSeeked, handlePlay, handlePause,
      handleSeek, handleEvent, play, pause, seek;
    now rewrite Hv, Hh, Hsync, Hs.
Qed.



(** Two runs of the sync effect in a row, none pending before: the first
    timer to fire lowers the flag while the timer of the second run is
    still pending, and the host's element events are sent from then on. *)
Theorem first_timer_ends_guard
    (h : Hook) (now1 now2 : Q) (mediaUrl : string) (ps1 ps2 : PlaybackState)
    (pl : Player) (video : Video) :
  videoRef pl = Some video → mediaUrl ≠ "" → timers pl = [] →
  isHost (state h) = true → is_Some (socketRef h) →
  let pl' := timerFired (syncEffect now2 mediaUrl ps2 (syncEffect now1 mediaUrl ps1 pl)) in
  timers pl' = [(now2 + 100)%Q]
  ∧ isSyncingRef pl' = false
  ∧ (∀ ev, emitted (dispatch h pl' ev) ≠ []).
Proof.
  intros Hv Hurl Ht Hh Hs.
  rewrite (syncEffect_video now1 mediaUrl ps1 pl video Hv Hurl).
  erewrite (syncEffect_video now2 mediaUrl ps2) by (first [reflexivity | exact Hurl]).
  simpl. rewrite Ht. simpl. split; [reflexivity|]. split; [reflexivity|].
  intros ev. erewrite dispatch_host by (first [eassumption | reflexivity]).
  discriminate.
Qed.

Lemma first_timer_ends_guard_witness :
  let alices := mkHook (run [(1000%Q, RoomJoined alice [alice; bob])] (initial 1000))
                       (Some TheSocket) in
  let pl' := timerFired (syncEffect 4050 "movie.mp4" (mkPlayback true 41 1 4000)
                           (syncEffect 4000 "movie.mp4" (mkPlayback true 40 1 1000) ahead)) in
  videoRef ahead = Some (mkVideo 46.5 true 1) ∧ "movie.mp4" ≠ "" ∧ timers ahead = []
  ∧ isHost (state alices) = true ∧ is_Some (socketRef alices)
  ∧ timers pl' = [(4050 + 100)%Q] ∧ isSyncingRef pl' = false.
Proof.
  intros alices pl'.
  assert (Hs : is_Some (socketRef alices)) by (eexists; reflexivity).
  split; [reflexivity|]. split; [discriminate|]. split; [reflexivity|].
  split; [reflexivity|]. split; [exact Hs|].
  destruct (first_timer_ends_guard alices 4000 4050 "movie.mp4"
              (mkPlayback true 40 1 1000) (mkPlayback true 41 1 4000) ahead
              (mkVideo 46.5 true 1) eq_refl ltac:(discriminate) eq_refl eq_refl Hs)
    as (Ht & Hf & _).
  split; [exact Ht | exact Hf].
Defined.

(** *** Local controls *)

Lemma perform_nil (pl : Player) : perform [] pl = pl.
Proof. unfold perform. destruct pl as [[v|] f t]; reflexivity. Qed.





(** A host's click on the progress bar, once the element has reported a
    duration: the progress indicator then stands at the clicked fraction
    of the bar, and a click inside the bar lands inside the medium. *)
Theorem progress_click_moves_indicator
    (rect : Rect) (duration clientX : Q) (pl : Player) (video : Video) :
  videoRef pl = Some video →
  (0 < duration)%Q → (0 < rect_width rect)%Q →
  let fraction := ((clientX - rect_left rect) / rect_width rect)%Q in
  ∃ video', videoRef (handleProgressClick true (Some rect) duration clientX pl)
            = Some video'
    ∧ v_currentTime video' = (fraction * duration)%Q
    ∧ (progressPercent (v_currentTime video') duration == fraction * 100)%Q
    ∧ ((0 <= fraction)%Q → (fraction <= 1)%Q →
       (0 <= v_currentTime video')%Q ∧ (v_currentTime video' <= duration)%Q).
Proof.
  intros Hv Hd Hw fraction.
  assert (Hd0 : Qeq_bool duration 0 = false).
  { destruct (Qeq_bool duration 0) eqn:E; [|reflexivity].
    apply Qeq_bool_iff in E. rewrite E in Hd. discriminate. }
  assert (Hw0 : Qeq_bool (rect_width rect) 0 = false).
  { destruct (Qeq_bool (rect_width rect) 0) eqn:E; [|reflexivity].
    apply Qeq_bool_iff in E. rewrite E in Hw. discriminate. }
  unfold handleProgressClick, progressClickOps, perform.
  rewrite Hv, Hd0, Hw0. simpl.
  eexists. split; [reflexivity|]. simpl. fold fraction. split; [reflexivity|].
  clearbody fraction. split.
  - unfold progressPercent. rewrite Hd0. field.
    intros E. rewrite E in Hd. discriminate.
  - intros H0 H1. split.
    + apply Qmult_le_0_compat; [exact H0 | now apply Qlt_le_weak].
    + assert (H : (1 * duration == duration)%Q) by ring.
      rewrite <- H at 2.
      apply Qmult_le_compat_r; [exact H1 | now apply Qlt_le_weak].
Qed.

(** A bar from 100 to 500 px, a click at 200 px, a medium of 120 s. *)
Lemma progress_click_moves_indicator_witness :
  videoRef ahead = Some (mkVideo 46.5 true 1)
  ∧ (0 < 120)%Q ∧ (0 < rect_width (mkRect 100 400))%Q
  ∧ ∃ video', videoRef (handleProgressClick true (Some (mkRect 100 400)) 120 200 ahead)
              = Some video'
      ∧ (progressPercent (v_currentTime video') 120 == 25)%Q.
Proof.
  split; [reflexivity|]. split; [reflexivity|]. split; [reflexivity|].
  destruct (progress_click_moves_indicator (mkRect 100 400) 120 200 ahead
              (mkVideo 46.5 true 1) eq_refl eq_refl eq_refl)
    as (video' & Hv & _ & Hp & _).
  exists video'. split; [exact Hv|]. rewrite Hp. reflexivity.
Defined.

(** Without a reported duration the progress bar is inert, and guests can
    move nothing: no click, seek or toggle of theirs reaches the element. *)
Theorem controls_inert_for_guests_and_without_duration
    (isHost : bool) (progressRef : option Rect) (clientX time : Q) (pl : Player) :
  handleProgressClick isHost progressRef 0 clientX pl = pl
  ∧ progressPercent time 0 = 0%Q
  ∧ (∀ duration, handleProgressClick false progressRef duration clientX pl = pl)
  ∧ seekTo false time pl = pl
  ∧ togglePlayPause false pl = pl.
Proof.
  unfold handleProgressClick, progressClickOps, seekTo, seekToOps, togglePlayPause,
    toggleOps.
  repeat split.
  - destruct progressRef, isHost; simpl; apply perform_nil.
  - intros duration. destruct progressRef; simpl; apply perform_nil.
  - apply perform_nil.
  - destruct (videoRef pl); [apply perform_nil | reflexivity].
Qed.

End PlayerProofs.

(* ===================================================================== *)
(** ** Properties of the voice mesh coordinator *)
(* ===================================================================== *)

Module VoiceProofs.
Import UseRoom VoiceCall Samples.

(** *** The participant list *)

Lemma createPeerConnection_roster (props : Props) (peerId : string)
    (isInitiator : bool) (st : VoiceState) :
  voiceParticipants (createPeerConnection props peerId isInitiator st).1.2
  = voiceParticipants st.
Proof.
  unfold createPeerConnection.
  destruct (socket props), (localStreamRef st); reflexivity.
Qed.

Lemma cleanupPeerConnection_roster (peerId : string) (st : VoiceState) :
  voiceParticipants (cleanupPeerConnection peerId st).1 = voiceParticipants st.
Proof.
  unfold cleanupPeerConnection.
  destruct (peerConnectionsRef st !! peerId); reflexivity.
Qed.

Lemma connectTo_roster (props : Props) (inCall : bool)
    (acc : VoiceState * list VoiceEffect) (p : VoiceParticipant) :
  voiceParticipants (connectTo props inCall acc p).1 = voiceParticipants acc.1.
Proof.
  unfold connectTo.
  destruct (other_than (currentUserId props) p && inCall); [|reflexivity].
  pose proof (createPeerConnection_roster props (vp_id p) true acc.1) as H.
  destruct (createPeerConnection props (vp_id p) true acc.1) as [[o st'] effs].
  exact H.
Qed.

Lemma fold_connectTo_roster (props : Props) (inCall : bool)
    (ps : list VoiceParticipant) (acc : VoiceState * list VoiceEffect) :
  voiceParticipants (fold_left (connectTo props inCall) ps acc).1
  = voiceParticipants acc.1.
Proof.
  revert acc. induction ps as [|p ps IH]; intros acc; simpl; [reflexivity|].
  rewrite IH. apply connectTo_roster.
Qed.

Lemma handle_roster (props : Props) (ev : VoiceEvent) (st : VoiceState) :
  voiceParticipants (handle props ev st).1
  = roster_update props ev (voiceParticipants st).
Proof.
  destruct ev as [ps|p|pid|pid m|fromId sdp|fromId sdp|fromId c]; simpl.
  - unfold onParticipants. now rewrite fold_connectTo_roster.
  - unfold onParticipantJoined.
    destruct (isInCall st && other_than (currentUserId props) p); [|reflexivity].
    match goal with
    | |- context [createPeerConnection ?a ?b ?c ?d] =>
        pose proof (createPeerConnection_roster a b c d) as H;
        destruct (createPeerConnection a b c d) as [[o st'] effs]
    end.
    exact H.
  - unfold onParticipantLeft. now rewrite cleanupPeerConnection_roster.
  - reflexivity.
  - unfold onOffer.
    destruct (peerConnectionsRef st !! fromId) as [pc|]; [reflexivity|].
    pose proof (createPeerConnection_roster props fromId false st) as H.
    destruct (createPeerConnection props fromId false st) as [[[pc|] st'] effs];
      exact H.
  - unfold onAnswer.
    destruct (peerConnectionsRef st !! fromId); reflexivity.
  - unfold onIceCandidate.
    destruct (peerConnectionsRef st !! fromId), c; reflexivity.
Qed.

Lemma filter_ids_subset (P : VoiceParticipant → bool)
    (l : list VoiceParticipant) (i : string) :
  i ∈ map vp_id (List.filter P l) → i ∈ map vp_id l.
Proof.
  intros Hin. apply list_elem_of_fmap in Hin as (q & -> & Hq).
  apply list_elem_of_fmap. exists q. split; [reflexivity|].
  apply list_elem_of_In in Hq. apply filter_In in Hq as [Hq _].
  now apply list_elem_of_In.
Qed.

Lemma filter_ids_nodup (P : VoiceParticipant → bool) (l : list VoiceParticipant) :
  NoDup (map vp_id l) → NoDup (map vp_id (List.filter P l)).
Proof.
  induction l as [|p l IH]; simpl; intros Hnd; [constructor|].
  apply NoDup_cons in Hnd as [Hp Hnd].
  destruct (P p); simpl; auto.
  apply NoDup_cons. split; auto.
  intros Hin. apply Hp. eapply filter_ids_subset, Hin.
Qed.

Lemma other_than_filter_excludes (id : string) (l : list VoiceParticipant) :
  id ∉ map vp_id (List.filter (other_than id) l).
Proof.
  intros Hin. apply list_elem_of_fmap in Hin as (q & -> & Hq).
  apply list_elem_of_In in Hq. apply filter_In in Hq as [_ Hq].
  unfold other_than in Hq. apply negb_true_iff in Hq.
  apply String.eqb_neq in Hq. congruence.
Qed.

Lemma voice_muted_ids (pid : string) (m : bool) (l : list VoiceParticipant) :
  map vp_id (voice_muted pid m l) = map vp_id l.
Proof.
  unfold voice_muted. induction l as [|p l IH]; simpl; [reflexivity|].
  rewrite IH. now destruct (String.eqb (vp_id p) pid).
Qed.

(** Apart from a joined event that names the local participant, every
    event keeps the list free of duplicate ids and free of the local id
    (rosters being sent with distinct ids). *)
Lemma roster_invariant_step (props : Props) (ev : VoiceEvent) (st : VoiceState) :
  (∀ ps, ev = VoiceParticipants ps → NoDup (map vp_id ps)) →
  (∀ p, ev = VoiceParticipantJoined p → vp_id p ≠ currentUserId props) →
  NoDup (voice_ids st) → currentUserId props ∉ voice_ids st →
  NoDup (voice_ids (handle props ev st).1)
  ∧ currentUserId props ∉ voice_ids (handle props ev st).1.
Proof.
  unfold voice_ids. rewrite handle_roster.
  intros Hroster Hjoin Hnd Hme.
  destruct ev as [ps|p|pid|pid m|fromId sdp|fromId sdp|fromId c]; simpl; auto.
  - split; [apply filter_ids_nodup; eauto | apply other_than_filter_excludes].
  - unfold voice_joined. rewrite map_app. simpl. split.
    + apply NoDup_app. split; [now apply filter_ids_nodup|].
      split; [|apply NoDup_singleton].
      intros i Hi Hin. apply list_elem_of_singleton in Hin. subst i.
      exact (other_than_filter_excludes _ _ Hi).
    + rewrite elem_of_app. intros [Hin|Hin].
      * apply Hme. eapply filter_ids_subset, Hin.
      * apply list_elem_of_singleton in Hin. specialize (Hjoin p eq_refl). congruence.
  - split; [now apply filter_ids_nodup|].
    intros Hin. apply Hme. eapply filter_ids_subset, Hin.
  - rewrite voice_muted_ids. auto.
Qed.

(** C9, at the failing input.  A joined event that names the local
    participant puts the local id on the list: the handler guards the
    peer connection against it, not the list. *)
Theorem own_join_event_lists_self :
  let st := (run me [VoiceParticipantJoined vme] inCall).1 in
  voiceParticipants st = [vme]
  ∧ currentUserId me ∈ voice_ids st
  ∧ connections st = [].
Proof.
  split; [reflexivity|]. split; [|reflexivity].
  vm_compute. apply list_elem_of_here.
Qed.

(** *** Peer links *)

(** The offer handler opens a connection only when the sender has none. *)
Lemma onOffer_reuses_link (props : Props) (fromId : string) (sdp : Sdp)
    (st : VoiceState) (pc : nat) :
  peerConnectionsRef st !! fromId = Some pc →
  length (connections (onOffer props fromId sdp st).1) = length (connections st)
  ∧ peerConnectionsRef (onOffer props fromId sdp st).1 = peerConnectionsRef st.
Proof.
  intros H. unfold onOffer. rewrite H. simpl. split; [|reflexivity].
  apply length_alter.
Qed.

(** The joined handler opens a connection whether or not the map already
    holds one for that peer. *)
Lemma onParticipantJoined_always_opens (props : Props) (p : VoiceParticipant)
    (st : VoiceState) :
  is_Some (socket props) → is_Some (localStreamRef st) → isInCall st = true →
  vp_id p ≠ currentUserId props →
  connections (onParticipantJoined props p st).1
  = connections st ++ [mkPc (vp_id p) false false None].
Proof.
  intros [sock Hs] [m Hm] Hcall Hne.
  unfold onParticipantJoined, other_than, createPeerConnection.
  apply String.eqb_neq in Hne. rewrite Hcall, Hne. simpl.
  rewrite Hs, Hm. reflexivity.
Qed.

(** [createPeerConnection] itself never looks at the map before writing. *)
Lemma createPeerConnection_always_allocates (props : Props) (peerId : string)
    (isInitiator : bool) (st : VoiceState) :
  is_Some (socket props) → is_Some (localStreamRef st) →
  let st' := (createPeerConnection props peerId isInitiator st).1.2 in
  connections st' = connections st ++ [mkPc peerId isInitiator false None]
  ∧ peerConnectionsRef st' !! peerId = Some (length (connections st)).
Proof.
  intros [sock Hs] [m Hm]. unfold createPeerConnection. rewrite Hs, Hm. simpl.
  split; [reflexivity|]. apply lookup_insert_eq.
Qed.

(** C5, at the failing input.  Bob is in the roster received on joining
    the call and is then announced again by a late joined event: two
    connections to Bob are open, the first one (the initiator that sent
    the offer) no longer reachable through the map. *)
Theorem late_joined_duplicate_opens_second_link :
  let st := (run me [VoiceParticipants [vbob]; VoiceParticipantJoined vbob] inCall).1 in
  open_links "b" st = [mkPc "b" true false None; mkPc "b" false false None]
  ∧ peerConnectionsRef st !! "b" = Some 1.
Proof. split; vm_compute; reflexivity. Qed.

(** *** ICE candidates *)

(** The claim of C6 fails: a candidate from Bob that arrives before any
    connection to Bob exists leaves no trace; the offer that follows
    opens the connection and sets its remote description, and the
    candidate is never handed to it. *)
Lemma early_candidate_is_dropped :
  onIceCandidate "b" (Some "candidate") inCall = (inCall, [])
  ∧ run me [VoiceIceCandidate "b" (Some "candidate"); VoiceOffer "b" "offer"] inCall
    = run me [VoiceOffer "b" "offer"] inCall
  ∧ List.filter is_add_candidate
      (run me [VoiceIceCandidate "b" (Some "candidate"); VoiceOffer "b" "offer"]
           inCall).2 = [].
Proof. repeat split. Qed.

(** C6, amended.  An ICE candidate event never changes the state of the
    coordinator, so nothing is buffered.  When a connection exists for
    the sender, a non-null candidate is handed to it at once, whether or
    not it has a remote description; when none exists, or the candidate
    is null, nothing is done with it. *)
Theorem ice_candidate_needs_peer_link
    (fromId : string) (candidate : option IceCandidate) (st : VoiceState) :
  (onIceCandidate fromId candidate st).1 = st
  ∧ (∀ pc c, peerConnectionsRef st !! fromId = Some pc → candidate = Some c →
       (onIceCandidate fromId candidate st).2 = [PcAddIceCandidate pc c])
  ∧ (peerConnectionsRef st !! fromId = None →
       (onIceCandidate fromId candidate st).2 = [])
  ∧ (candidate = None → (onIceCandidate fromId candidate st).2 = []).
Proof.
  unfold onIceCandidate.
  destruct (peerConnectionsRef st !! fromId) as [pc|], candidate as [c|]; simpl;
    repeat split; intros; congruence.
Qed.

Lemma ice_candidate_needs_peer_link_witness :
  let st := (run me [VoiceParticipantJoined vbob] inCall).1 in
  peerConnectionsRef st !! "b" = Some 0
  ∧ (onIceCandidate "b" (Some "candidate") st).2 = [PcAddIceCandidate 0 "candidate"].
Proof.
  intros st.
  assert (Hpc : peerConnectionsRef st !! "b" = Some 0) by (vm_compute; reflexivity).
  split; [exact Hpc|].
  exact (proj1 (proj2 (ice_candidate_needs_peer_link "b" (Some "candidate") st))
           0 "candidate" Hpc eq_refl).
Defined.

(** *** Map and store stay linked *)

Lemma linked_same (st st' : VoiceState) :
  connections st' = connections st →
  peerConnectionsRef st' = peerConnectionsRef st →
  linked st → linked st'.
Proof. unfold linked. intros -> ->. auto. Qed.

Lemma linked_create (props : Props) (peerId : string) (isInitiator : bool)
    (st : VoiceState) :
  linked st → linked (createPeerConnection props peerId isInitiator st).1.2.
Proof.
  intros Hl. unfold createPeerConnection.
  destruct (socket props), (localStreamRef st); try exact Hl.
  simpl. intros k h. simpl. rewrite lookup_insert_Some.
  intros [[<- <-]|[Hne Hk]].
  - eexists. split; [apply list_lookup_middle; reflexivity|]. auto.
  - destruct (Hl k h Hk) as (c & Hc & Hid & Hopen).
    exists c. split; [|auto].
    rewrite lookup_app_l; [exact Hc|]. eapply lookup_lt_Some, Hc.
Qed.

Lemma linked_cleanup (peerId : string) (st : VoiceState) :
  linked st → linked (cleanupPeerConnection peerId st).1.
Proof.
  intros Hl. unfold cleanupPeerConnection.
  destruct (peerConnectionsRef st !! peerId) as [pc|] eqn:E; [|exact Hl].
  simpl. intros k h. simpl. rewrite lookup_delete_Some. intros [Hne Hk].
  destruct (Hl k h Hk) as (c & Hc & Hid & Hopen).
  destruct (Hl peerId pc E) as (c0 & Hc0 & Hid0 & _).
  exists c. split; [|auto].
  rewrite list_lookup_alter_ne; [exact Hc|].
  intros ->. rewrite Hc in Hc0. inversion Hc0; subst c0. congruence.
Qed.

Lemma linked_describe (sdp : Sdp) (pc : nat) (st : VoiceState) :
  linked st → linked (set_connections (alter (describe_pc sdp) pc) st).
Proof.
  intros Hl k h Hk. simpl in *.
  destruct (Hl k h Hk) as (c & Hc & Hid & Hopen).
  destruct (decide (pc = h)) as [->|Hne].
  - exists (describe_pc sdp c). rewrite list_lookup_alter_eq, Hc. auto.
  - exists c. rewrite list_lookup_alter_ne by exact Hne. auto.
Qed.

Lemma linked_connectTo (props : Props) (inCall : bool)
    (ps : list VoiceParticipant) (acc : VoiceState * list VoiceEffect) :
  linked acc.1 → linked (fold_left (connectTo props inCall) ps acc).1.
Proof.
  revert acc. induction ps as [|p ps IH]; intros acc Hl; [exact Hl|].
  simpl. apply IH. unfold connectTo.
  destruct (other_than (currentUserId props) p && inCall); [|exact Hl].
  pose proof (linked_create props (vp_id p) true acc.1 Hl) as H.
  destruct (createPeerConnection props (vp_id p) true acc.1) as [[o st'] effs].
  exact H.
Qed.

Lemma linked_handle (props : Props) (ev : VoiceEvent) (st : VoiceState) :
  linked st → linked (handle props ev st).1.
Proof.
  intros Hl.
  destruct ev as [ps|p|pid|pid m|fromId sdp|fromId sdp|fromId c]; simpl.
  - unfold onParticipants. apply linked_connectTo. exact Hl.
  - unfold onParticipantJoined.
    destruct (isInCall st && other_than (currentUserId props) p); [|exact Hl].
    match goal with
    | |- context [createPeerConnection ?a ?b ?c ?d] =>
        pose proof (linked_create a b c d Hl) as H;
        destruct (createPeerConnection a b c d) as [[o st'] effs]
    end.
    exact H.
  - unfold onParticipantLeft. apply linked_cleanup. exact Hl.
  - exact Hl.
  - unfold onOffer.
    destruct (peerConnectionsRef st !! fromId) as [pc|].
    + now apply linked_describe.
    + pose proof (linked_create props fromId false st Hl) as H.
      destruct (createPeerConnection props fromId false st) as [[[pc|] st'] effs];
        simpl in *; [now apply linked_describe | exact H].
  - unfold onAnswer.
    destruct (peerConnectionsRef st !! fromId); [now apply linked_describe | exact Hl].
  - unfold onIceCandidate.
    destruct (peerConnectionsRef st !! fromId), c; exact Hl.
Qed.

Lemma linked_react (props : Props) (i : Input) (st : VoiceState) :
  linked st → linked (react props i st).1.
Proof.
  intros Hl. destruct i as [ev|pid|pid|pid c]; simpl.
  - now apply linked_handle.
  - now apply linked_cleanup.
  - exact Hl.
  - destruct c; exact Hl.
Qed.

Lemma runInputs_linked (props : Props) (inputs : list Input) (st : VoiceState) :
  linked st → linked (runInputs props inputs st).1.
Proof.
  unfold runInputs. generalize (@nil VoiceEffect) as effs.
  revert st. induction inputs as [|i inputs IH]; intros st effs Hl; [exact Hl|].
  simpl. pose proof (linked_react props i st Hl) as H.
  destruct (react props i st) as [st' e]. apply IH. exact H.
Qed.

(** Whatever arrives on the socket and whatever the connections call
    back, in any order: every entry of the peer map keeps leading to a
    connection that was made for that very peer and that the component has
    not closed. *)
Theorem map_stays_linked (props : Props) (inputs : list Input) (st : VoiceState) :
  linked st → linked (runInputs props inputs st).1.
Proof. apply runInputs_linked. Qed.

Lemma map_stays_linked_witness :
  let inputs := [FromSocket (VoiceParticipants [vbob; vme]);
                 FromSocket (VoiceOffer "c" "offer");
                 Track "b"; ConnectionLost "b";
                 FromSocket (VoiceParticipantLeft "c")] in
  linked inCall ∧ linked (runInputs me inputs inCall).1.
Proof.
  intros inputs.
  assert (H0 : linked inCall).
  { intros k h Hk. simpl in Hk. rewrite lookup_empty in Hk. discriminate. }
  split; [exact H0|]. exact (map_stays_linked me inputs inCall H0).
Defined.

(** *** A participant leaves the call *)

(** When a peer with a link leaves the call, that link is closed and
    forgotten, the peer is off the list, and no other connection is
    touched; for a peer without a link nothing is closed. *)
Theorem participant_left_closes_link
    (props : Props) (participantId : string) (st : VoiceState) (pc : nat) :
  linked st → peerConnectionsRef st !! participantId = Some pc →
  let r := handle props (VoiceParticipantLeft participantId) st in
  r.2 = [PcClose pc]
  ∧ peerConnectionsRef r.1 !! participantId = None
  ∧ (∃ c, connections st !! pc = Some c ∧ pc_closed c = false
          ∧ connections r.1 !! pc = Some (close_pc c))
  ∧ (∀ other, other ≠ pc → connections r.1 !! other = connections st !! other)
  ∧ (participantId ∉ voice_ids r.1)
  ∧ (participantId ∉ audioElementsRef r.1).
Proof.
  intros Hl Hpc. simpl. unfold onParticipantLeft, cleanupPeerConnection. simpl.
  rewrite Hpc. simpl.
  destruct (Hl _ _ Hpc) as (c & Hc & _ & Hopen).
  split; [reflexivity|]. split; [apply lookup_delete_eq|].
  split; [exists c; rewrite list_lookup_alter_eq, Hc; auto|].
  split; [intros other Hne; now apply list_lookup_alter_ne|].
  split; [apply other_than_filter_excludes|].
  intros Hin. apply elem_of_difference in Hin as [_ Hin].
  apply Hin, elem_of_singleton. reflexivity.
Qed.

Lemma participant_left_closes_link_witness :
  let st := (run me [VoiceParticipantJoined vbob] inCall).1 in
  linked st ∧ peerConnectionsRef st !! "b" = Some 0
  ∧ (handle me (VoiceParticipantLeft "b") st).2 = [PcClose 0].
Proof.
  intros st.
  assert (Hl : linked st).
  { apply (linked_handle me (VoiceParticipantJoined vbob) inCall).
    intros k h Hk. simpl in Hk. rewrite lookup_empty in Hk. discriminate. }
  assert (Hpc : peerConnectionsRef st !! "b" = Some 0) by (vm_compute; reflexivity).
  split; [exact Hl|]. split; [exact Hpc|].
  exact (proj1 (participant_left_closes_link me "b" st 0 Hl Hpc)).
Defined.

(** *** Offers *)

(** An offer is answered on one connection: the one the map holds for the
    sender if there is one (no second connection is made), else a fresh
    responder that is entered in the map; with no microphone stream or no
    socket an offer from an unknown sender is ignored altogether. *)
Theorem offer_is_answered_on_one_link
    (props : Props) (fromId : string) (sdp : Sdp) (st : VoiceState) :
  let r := onOffer props fromId sdp st in
  let fresh := length (connections st) in
  (∀ pc, peerConnectionsRef st !! fromId = Some pc →
     r.2 = [PcSetRemoteDescription pc sdp; EmitVoiceAnswer fromId pc]
     ∧ length (connections r.1) = length (connections st)
     ∧ peerConnectionsRef r.1 = peerConnectionsRef st)
  ∧ (peerConnectionsRef st !! fromId = None →
     is_Some (socket props) → is_Some (localStreamRef st) →
     r.2 = [PcSetRemoteDescription fresh sdp; EmitVoiceAnswer fromId fresh]
     ∧ connections r.1 = connections st ++ [mkPc fromId false false (Some sdp)]
     ∧ peerConnectionsRef r.1 = <[fromId := fresh]> (peerConnectionsRef st))
  ∧ (peerConnectionsRef st !! fromId = None →
     socket props = None ∨ localStreamRef st = None →
     r = (st, [])).
Proof.
  unfold onOffer. split; [|split].
  - intros pc Hpc. rewrite Hpc. simpl.
    split; [reflexivity|]. split; [apply length_alter | reflexivity].
  - intros Hnone [sock Hs] [m Hm]. rewrite Hnone.
    unfold createPeerConnection. rewrite Hs, Hm. simpl.
    split; [reflexivity|]. split; [|reflexivity].
    replace (length (connections st)) with (length (connections st) + 0) at 1 by lia.
    now rewrite alter_app_r.
  - intros Hnone Hmiss. rewrite Hnone. unfold createPeerConnection.
    destruct Hmiss as [-> | Hm]; [reflexivity|].
    rewrite Hm. now destruct (socket props).
Qed.

(** *** The roster *)

Lemma offersTo_cons (n : nat) (p : VoiceParticipant) (l : list VoiceParticipant) :
  offersTo n (p :: l) = EmitVoiceOffer (vp_id p) n :: offersTo (S n) l.
Proof.
  unfold offersTo. rewrite imap_cons. f_equal; [f_equal; lia|].
  apply imap_ext. intros i x _. simpl. f_equal. lia.
Qed.

Lemma connectTo_other (props : Props) (acc : VoiceState * list VoiceEffect)
    (p : VoiceParticipant) :
  is_Some (socket props) → is_Some (localStreamRef acc.1) →
  other_than (currentUserId props) p = true →
  let r := connectTo props true acc p in
  connections r.1 = connections acc.1 ++ [mkPc (vp_id p) true false None]
  ∧ localStreamRef r.1 = localStreamRef acc.1
  ∧ r.2 = acc.2 ++ [EmitVoiceOffer (vp_id p) (length (connections acc.1))].
Proof.
  intros [sock Hs] [m Hm] Ho. unfold connectTo, createPeerConnection.
  rewrite Ho, Hs, Hm. simpl. auto.
Qed.

Lemma connectTo_self (props : Props) (acc : VoiceState * list VoiceEffect)
    (p : VoiceParticipant) :
  other_than (currentUserId props) p = false → connectTo props true acc p = acc.
Proof. intros Ho. unfold connectTo. now rewrite Ho. Qed.

Lemma fold_connectTo_spec (props : Props) (ps : list VoiceParticipant)
    (acc : VoiceState * list VoiceEffect) :
  is_Some (socket props) → is_Some (localStreamRef acc.1) →
  let others := List.filter (other_than (currentUserId props)) ps in
  let r := fold_left (connectTo props true) ps acc in
  connections r.1
  = connections acc.1 ++ map (λ p, mkPc (vp_id p) true false None) others
  ∧ r.2 = acc.2 ++ offersTo (length (connections acc.1)) others.
Proof.
  intros Hs. revert acc. induction ps as [|p ps IH]; intros acc Hm.
  - simpl. now rewrite !app_nil_r.
  - cbv zeta. simpl fold_left. simpl List.filter.
    destruct (other_than (currentUserId props) p) eqn:Eo.
    + destruct (connectTo_other props acc p Hs Hm Eo) as (Hc & Hl & He).
      assert (Hm' : is_Some (localStreamRef (connectTo props true acc p).1))
        by now rewrite Hl.
      destruct (IH (connectTo props true acc p) Hm') as [H1 H2].
      rewrite H1, H2, Hc, He, length_app. simpl.
      rewrite offersTo_cons, <- !app_assoc. simpl.
      replace (length (connections acc.1) + 1) with (S (length (connections acc.1))) by lia.
      split; reflexivity.
    + rewrite (connectTo_self props acc p Eo). apply IH. exact Hm.
Qed.

(** On receiving the roster while in the call, the component lists the
    other members, opens exactly one initiator connection for each of
    them, in roster order, and sends each its offer; it opens none to
    itself. *)
Theorem roster_opens_one_initiator_each
    (props : Props) (participants : list VoiceParticipant) (st : VoiceState) :
  is_Some (socket props) → is_Some (localStreamRef st) → isInCall st = true →
  let others := List.filter (other_than (currentUserId props)) participants in
  let r := onParticipants props participants st in
  voiceParticipants r.1 = others
  ∧ connections r.1
    = connections st ++ map (λ p, mkPc (vp_id p) true false None) others
  ∧ r.2 = offersTo (length (connections st)) others
  ∧ Forall (λ c, pc_peerId c ≠ currentUserId props)
           (drop (length (connections st)) (connections r.1)).
Proof.
  intros Hs Hm Hcall others r.
  assert (Hr : voiceParticipants r.1 = others).
  { unfold r, onParticipants. now rewrite fold_connectTo_roster. }
  assert (Er : r = fold_left (connectTo props true) participants
                     (set_voiceParticipants (λ _, others) st, [])).
  { unfold r, onParticipants. now rewrite Hcall. }
  destruct (fold_connectTo_spec props participants
              (set_voiceParticipants (λ _, others) st, []) Hs Hm) as [H1 H2].
  rewrite <- Er in H1, H2. simpl in H1, H2. fold others in H1, H2.
  split; [exact Hr|]. split; [exact H1|]. split; [exact H2|].
  rewrite H1, drop_app_length.
  apply Forall_forall. intros c Hc.
  apply list_elem_of_fmap in Hc as (p & -> & Hp). simpl.
  apply list_elem_of_In in Hp. apply filter_In in Hp as [_ Hp].
  unfold other_than in Hp. apply negb_true_iff in Hp. now apply String.eqb_neq.
Qed.

Lemma roster_opens_one_initiator_each_witness :
  is_Some (socket me) ∧ is_Some (localStreamRef inCall) ∧ isInCall inCall = true
  ∧ (onParticipants me [vbob; vme; mkVoice "c" "Carol" true] inCall).2
    = [EmitVoiceOffer "b" 0; EmitVoiceOffer "c" 1].
Proof.
  assert (Hs : is_Some (socket me)) by (eexists; reflexivity).
  assert (Hm : is_Some (localStreamRef inCall)) by (eexists; reflexivity).
  split; [exact Hs|]. split; [exact Hm|]. split; [reflexivity|].
  exact (proj1 (proj2 (proj2 (roster_opens_one_initiator_each me
           [vbob; vme; mkVoice "c" "Carol" true] inCall Hs Hm eq_refl)))).
Defined.

(** *** Leaving the call *)

Lemma cleanup_peers (k k0 : string) (st : VoiceState) :
  peerConnectionsRef (cleanupPeerConnection k st).1 !! k0
  = if decide (k = k0) then None else peerConnectionsRef st !! k0.
Proof.
  unfold cleanupPeerConnection.
  destruct (peerConnectionsRef st !! k) as [h|] eqn:E; simpl.
  - case_decide as Hk; [subst; apply lookup_delete_eq | now apply lookup_delete_ne].
  - case_decide as Hk; [now subst | reflexivity].
Qed.

Lemma cleanup_length (k : string) (st : VoiceState) :
  length (connections (cleanupPeerConnection k st).1) = length (connections st).
Proof.
  unfold cleanupPeerConnection.
  destruct (peerConnectionsRef st !! k); simpl; [apply length_alter | reflexivity].
Qed.

Lemma cleanup_closed_stays (k : string) (st : VoiceState) (h : nat) (c : PeerConnection) :
  connections st !! h = Some c → pc_closed c = true →
  ∃ c', connections (cleanupPeerConnection k st).1 !! h = Some c'
        ∧ pc_closed c' = true.
Proof.
  intros Hc Hcl. unfold cleanupPeerConnection.
  destruct (peerConnectionsRef st !! k) as [h0|]; simpl; [|eauto].
  destruct (decide (h0 = h)) as [->|Hne].
  - exists (close_pc c). now rewrite list_lookup_alter_eq, Hc.
  - exists c. now rewrite list_lookup_alter_ne.
Qed.

Lemma cleanup_closes (k : string) (st : VoiceState) (h : nat) :
  linked st → peerConnectionsRef st !! k = Some h →
  ∃ c', connections (cleanupPeerConnection k st).1 !! h = Some c'
        ∧ pc_closed c' = true.
Proof.
  intros Hl Hk. destruct (Hl k h Hk) as (c & Hc & _ & _).
  unfold cleanupPeerConnection. rewrite Hk. simpl.
  exists (close_pc c). now rewrite list_lookup_alter_eq, Hc.
Qed.

Lemma cleanup_audio (k x : string) (st : VoiceState) :
  x ∉ audioElementsRef st ∨ x = k →
  x ∉ audioElementsRef (cleanupPeerConnection k st).1.
Proof.
  intros H. unfold cleanupPeerConnection.
  destruct (peerConnectionsRef st !! k); simpl;
    rewrite elem_of_difference, elem_of_singleton; tauto.
Qed.

Lemma closeList_keeps (l : list (string * nat)) (st : VoiceState) :
  length (connections (closeList l st)) = length (connections st)
  ∧ (∀ k, peerConnectionsRef st !! k = None →
          peerConnectionsRef (closeList l st) !! k = None)
  ∧ (∀ h c, connections st !! h = Some c → pc_closed c = true →
            ∃ c', connections (closeList l st) !! h = Some c' ∧ pc_closed c' = true)
  ∧ (∀ x, x ∉ audioElementsRef st → x ∉ audioElementsRef (closeList l st)).
Proof.
  revert st. induction l as [|[k h] l IH]; intros st.
  - simpl. eauto 10.
  - simpl. destruct (IH (cleanupPeerConnection k st).1) as (H1 & H2 & H3 & H4).
    split; [now rewrite H1, cleanup_length|]. split; [|split].
    + intros k0 Hk0. apply H2. rewrite cleanup_peers, Hk0. now case_decide.
    + intros h0 c Hc Hcl.
      destruct (cleanup_closed_stays k st h0 c Hc Hcl) as (c' & Hc' & Hcl').
      eapply H3; eassumption.
    + intros x Hx. apply H4, cleanup_audio. now left.
Qed.

Lemma closeList_spec (l : list (string * nat)) (st : VoiceState) :
  NoDup l.*1 → linked st →
  (∀ k h, (k, h) ∈ l → peerConnectionsRef st !! k = Some h) →
  ∀ k h, (k, h) ∈ l →
    peerConnectionsRef (closeList l st) !! k = None
    ∧ (∃ c', connections (closeList l st) !! h = Some c' ∧ pc_closed c' = true)
    ∧ (k ∉ audioElementsRef (closeList l st)).
Proof.
  revert st. induction l as [|[k0 h0] l IH]; intros st Hnd Hl Hall k h Hin.
  - inversion Hin.
  - simpl in Hnd. apply NoDup_cons in Hnd as [Hk0 Hnd].
    simpl. destruct (closeList_keeps l (cleanupPeerConnection k0 st).1)
      as (_ & K2 & K3 & K4).
    apply elem_of_cons in Hin as [Heq|Hin].
    + inversion Heq; subst k0 h0. split; [|split].
      * apply K2. rewrite cleanup_peers. now case_decide.
      * destruct (cleanup_closes k st h Hl (Hall k h ltac:(left))) as (c' & Hc' & Hcl').
        eapply K3; eassumption.
      * apply K4, cleanup_audio. now right.
    + apply IH; [exact Hnd | now apply linked_cleanup | | exact Hin].
      intros k1 h1 Hin1. rewrite cleanup_peers.
      case_decide as Hk; [|apply Hall; now right].
      subst k1. exfalso. apply Hk0.
      apply list_elem_of_fmap. exists (k0, h1). auto.
Qed.

(** Leaving the call, with a socket at hand: the component is out of the
    call with an empty list, no stream and the mute flag down; the map is
    empty; every connection the map held is closed and its audio element
    is gone; the leave is announced last.  Leaving once more changes
    nothing and only repeats the announcement. *)
Theorem leaveCall_tears_down (props : Props) (c : Call) :
  is_Some (socket props) → linked (voice c) →
  let r := leaveCall props c in
  isInCall (voice r.1) = false
  ∧ voiceParticipants (voice r.1) = []
  ∧ localStreamRef (voice r.1) = None
  ∧ isMuted r.1 = false
  ∧ peerConnectionsRef (voice r.1) = ∅
  ∧ (∀ k pc, peerConnectionsRef (voice c) !! k = Some pc →
       (∃ c', connections (voice r.1) !! pc = Some c' ∧ pc_closed c' = true)
       ∧ k ∉ audioElementsRef (voice r.1))
  ∧ last r.2 = Some EmitVoiceLeave
  ∧ leaveCall props r.1 = (r.1, [EmitVoiceLeave]).
Proof.
  intros [sock Hs] Hl. unfold leaveCall. rewrite Hs. cbv zeta.
  set (st := voice c) in *.
  assert (Hspec := closeList_spec (map_to_list (peerConnectionsRef st)) st
                     (NoDup_fst_map_to_list _) Hl
                     (λ k h H, proj1 (elem_of_map_to_list _ k h) H)).
  destruct (closeList_keeps (map_to_list (peerConnectionsRef st)) st)
    as (_ & Hnone & _ & _).
  unfold closeAll.
  set (st' := closeList (map_to_list (peerConnectionsRef st)) st) in *.
  assert (Hempty : peerConnectionsRef st' = ∅).
  { apply map_empty. intros k.
    destruct (peerConnectionsRef st !! k) as [h|] eqn:E.
    - apply (Hspec k h). now apply elem_of_map_to_list.
    - now apply Hnone. }
  simpl. repeat (split; [reflexivity|]).
  split; [exact Hempty|]. split; [|split].
  - intros k pc Hk. apply elem_of_map_to_list in Hk.
    destruct (Hspec k pc Hk) as (_ & H2 & H3). split; assumption.
  - now destruct (localStreamRef st).
  - rewrite Hempty, map_to_list_empty. simpl. reflexivity.
Qed.

Lemma leaveCall_tears_down_witness :
  let c := mkCall (run me [VoiceParticipants [vbob]; VoiceOffer "c" "offer"] inCall).1
                  true false false in
  is_Some (socket me) ∧ linked (voice c)
  ∧ peerConnectionsRef (voice (leaveCall me c).1) = ∅.
Proof.
  intros c.
  assert (Hs : is_Some (socket me)) by (eexists; reflexivity).
  assert (Hl : linked (voice c)).
  { apply (runInputs_linked me
             [FromSocket (VoiceParticipants [vbob]); FromSocket (VoiceOffer "c" "offer")]
             inCall).
    intros k h Hk. simpl in Hk. rewrite lookup_empty in Hk. discriminate. }
  split; [exact Hs|]. split; [exact Hl|].
  exact (proj1 (proj2 (proj2 (proj2 (proj2 (leaveCall_tears_down me c Hs Hl)))))).
Defined.

(** *** The mute button *)

Lemma act_consistent (props : Props) (a : UserAction) (c : Call) :
  mute_consistent c → mute_consistent (act props a c).1.
Proof.
  intros Hc. pose proof Hc as (Hio & Hout & Hin). unfold act.
  destruct (isInCall (voice c)) eqn:Ecall; destruct a as [granted|].
  - unfold leaveCall. destruct (socket props); [|exact Hc].
    unfold mute_consistent. simpl. split; [|split]; try discriminate; auto.
    split; [discriminate|]. intros [x Hx]. discriminate.
  - unfold toggleMute.
    destruct (socket props); [|exact Hc].
    destruct (localStreamRef (voice c)) eqn:Em; [|exact Hc].
    unfold mute_consistent. simpl. rewrite Ecall, Em. split; [|split].
    + split; eauto.
    + discriminate.
    + reflexivity.
  - unfold joinCall. destruct (socket props); [|exact Hc].
    destruct granted; unfold mute_consistent; simpl.
    + split; [|split]; [split; eauto | discriminate |].
      intros _. now rewrite (Hout eq_refl).
    + rewrite Ecall. auto.
  - exact Hc.
Qed.

(** Through any sequence of clicks on the call and mute buttons the mute
    button shows what the microphone does: during a call the track is
    enabled exactly when the mute flag is down, and outside a call the
    flag is down, so every call starts unmuted. *)
Theorem mute_button_matches_microphone
    (props : Props) (actions : list UserAction) (c : Call) :
  mute_consistent c → mute_consistent (runActions props actions c).
Proof.
  unfold runActions. revert c.
  induction actions as [|a actions IH]; intros c Hc; [exact Hc|].
  simpl. apply IH. now apply act_consistent.
Qed.

Lemma mute_button_matches_microphone_witness :
  mute_consistent initialCall
  ∧ mute_consistent
      (runActions me [ClickMute; ClickCall true; ClickMute; ClickCall true;
                      ClickCall false; ClickCall true] initialCall).
Proof.
  assert (H0 : mute_consistent initialCall).
  { repeat split; simpl; try discriminate; auto. intros [x Hx]. discriminate. }
  split; [exact H0|]. exact (mute_button_matches_microphone me _ initialCall H0).
Defined.

End VoiceProofs.

(* ===================================================================== *)
(** ** Properties of the chat panel and the unread badge *)
(* ===================================================================== *)

Module ChatProofs.
Import UseRoom ChatPanel RoomPage Samples.

(** *** Grouping *)

Lemma pushToLast_snoc (gs : list Group) (g : Group) (m : ChatMessage) :
  pushToLast (gs ++ [g]) m
  = gs ++ [mkGroup (g_senderId g) (g_senderName g) (g_messages g ++ [m])].
Proof.
  induction gs as [|g0 gs IH]; [reflexivity|].
  simpl app. simpl pushToLast. rewrite IH.
  destruct (gs ++ [g]) eqn:E; [|reflexivity].
  destruct gs; discriminate.
Qed.

Lemma flatten_snoc (gs : list Group) (g : Group) :
  flatten (gs ++ [g]) = flatten gs ++ g_messages g.
Proof.
  unfold flatten. rewrite map_app, concat_app. simpl. now rewrite app_nil_r.
Qed.

Lemma addMessage_inv (getTime : string → option Q) (seen : list ChatMessage)
    (acc : list Group * option ChatMessage) (m : ChatMessage) :
  reducer_inv seen acc → reducer_inv (seen ++ [m]) (addMessage getTime acc m).
Proof.
  destruct acc as [groups prev]. intros (Hflat & Hok & Hprev & Hlast).
  simpl in *. unfold addMessage, reducer_inv. simpl.
  destruct (continues getTime prev m) eqn:Ec.
  - unfold continues in Ec. destruct prev as [p|]; [|discriminate].
    apply andb_true_iff in Ec as [Esame _]. apply String.eqb_eq in Esame.
    destruct (Hlast p eq_refl) as (gs & g & -> & Hg).
    rewrite pushToLast_snoc.
    apply Forall_app in Hok as [Hgs Hg1].
    apply Forall_singleton in Hg1 as [Hne Hall].
    split; [|split; [|split]].
    + rewrite flatten_snoc in *. simpl. rewrite <- Hflat. apply app_assoc.
    + apply Forall_app. split; [exact Hgs|]. apply Forall_singleton.
      split; simpl.
      * intros E. apply app_eq_nil in E as [_ E]. discriminate.
      * apply Forall_app. split; [exact Hall|]. apply Forall_singleton. congruence.
    + now rewrite last_snoc.
    + intros q Hq. inversion Hq; subst q. eexists _, _. split; [reflexivity|].
      simpl. congruence.
  - split; [|split; [|split]].
    + rewrite flatten_snoc. simpl. now rewrite Hflat.
    + apply Forall_app. split; [exact Hok|]. apply Forall_singleton.
      split; simpl; [discriminate|]. now apply Forall_singleton.
    + now rewrite last_snoc.
    + intros q Hq. inversion Hq; subst q. eexists _, _. split; reflexivity.
Qed.

Lemma fold_addMessage_inv (getTime : string → option Q)
    (ms seen : list ChatMessage) (acc : list Group * option ChatMessage) :
  reducer_inv seen acc →
  reducer_inv (seen ++ ms) (fold_left (addMessage getTime) ms acc).
Proof.
  revert seen acc. induction ms as [|m ms IH]; intros seen acc Hinv; simpl.
  - now rewrite app_nil_r.
  - replace (seen ++ m :: ms) with ((seen ++ [m]) ++ ms)
      by now rewrite <- app_assoc.
    apply IH. now apply addMessage_inv.
Qed.

Lemma groupMessages_inv (getTime : string → option Q) (messages : list ChatMessage) :
  reducer_inv messages (fold_left (addMessage getTime) messages ([], None)).
Proof.
  apply (fold_addMessage_inv getTime messages [] ([], None)).
  repeat split; try constructor. intros p Hp. discriminate.
Qed.

Lemma groupMessages_flatten (getTime : string → option Q) (messages : list ChatMessage) :
  flatten (groupMessages getTime messages) = messages.
Proof. exact (proj1 (groupMessages_inv getTime messages)). Qed.

(** Grouping loses nothing and reorders nothing: the groups, read in
    order, give back the message list; no group is empty, and every
    message of a group is from the sender in its heading.  This holds
    whatever the timestamps parse to. *)
Theorem grouping_preserves_messages
    (getTime : string → option Q) (messages : list ChatMessage) :
  let groups := groupMessages getTime messages in
  flatten groups = messages
  ∧ Forall group_ok groups
  ∧ length groups <= length messages.
Proof.
  intros groups.
  destruct (groupMessages_inv getTime messages) as (Hflat & Hok & _ & _).
  split; [exact Hflat|]. split; [exact Hok|].
  fold (groupMessages getTime messages) in Hflat, Hok. fold groups in Hflat, Hok.
  rewrite <- Hflat. clear Hflat. unfold flatten.
  induction groups as [|g gs IH]; simpl; [lia|].
  apply Forall_cons in Hok as [[Hne _] Hok]. specialize (IH Hok).
  rewrite length_app. destruct (g_messages g); [contradiction|]. simpl. lia.
Qed.

(** In fullscreen mode the panel groups the last five messages only (all
    of them when there are fewer): what it shows is the log minus its
    older part. *)
Theorem fullscreen_groups_last_five
    (getTime : string → option Q) (messages : list ChatMessage) :
  let shown := flatten (groupMessages getTime (displayMessages true messages)) in
  messages = take (length messages - 5) messages ++ shown
  ∧ length shown = Nat.min 5 (length messages)
  ∧ flatten (groupMessages getTime (displayMessages false messages)) = messages.
Proof.
  intros shown. subst shown.
  rewrite !groupMessages_flatten.
  unfold displayMessages. split; [now rewrite take_drop|].
  split; [|reflexivity]. rewrite length_drop. lia.
Qed.

(** *** Sending from the panel *)

Lemma trimStart_idem (s : jstext) : trimStart (trimStart s) = trimStart s.
Proof.
  induction s as [|c s IH]; [reflexivity|]. simpl.
  destruct (isWhiteSpace c) eqn:E; [exact IH|]. simpl. now rewrite E.
Qed.

Lemma trimStart_snoc (s : jstext) (c : N) :
  isWhiteSpace c = false → trimStart (s ++ [c]) = trimStart s ++ [c].
Proof.
  intros Hc. induction s as [|d s IH]; simpl.
  - now rewrite Hc.
  - destruct (isWhiteSpace d); [exact IH | reflexivity].
Qed.

Lemma trimEnd_idem (s : jstext) : trimEnd (trimEnd s) = trimEnd s.
Proof.
  unfold trimEnd. now rewrite rev_involutive, trimStart_idem.
Qed.

Lemma trimEnd_cons (c : N) (s : jstext) :
  isWhiteSpace c = false → trimEnd (c :: s) = c :: trimEnd s.
Proof.
  intros Hc. unfold trimEnd. simpl rev.
  rewrite (trimStart_snoc _ _ Hc), rev_app_distr. reflexivity.
Qed.

(** Trimming twice is trimming once. *)
Lemma trim_idem (s : jstext) : trim (trim s) = trim s.
Proof.
  unfold trim.
  destruct (RoomProofs.trimStart_head s) as [E|(c & s' & E & Hc)]; rewrite E.
  - reflexivity.
  - rewrite (trimEnd_cons _ _ Hc). simpl. rewrite Hc.
    now rewrite (trimEnd_cons _ _ Hc), trimEnd_idem.
Qed.

Lemma sendMessage_emits (h : Hook) (content : jstext) :
  trim content ≠ [] → is_Some (socketRef h) →
  emitted (sendMessage h content) = [EmitChatSend content].
Proof.
  intros Ht Hs. unfold sendMessage.
  destruct (trim content); [contradiction|]. simpl.
  now rewrite bool_decide_eq_true_2.
Qed.

(** Submitting the input line, with the hook's [sendMessage] behind the
    panel and a socket present: a line that is not blank is sent trimmed,
    as one chat command, and the input is cleared; a blank line sends
    nothing and stays in the input. *)
Theorem submit_sends_trimmed_line (h : Hook) (st : PanelState) :
  is_Some (socketRef h) →
  let r := handleSubmit (sendMessage h) st in
  (trim (input st) ≠ [] →
     emitted r.2 = [EmitChatSend (trim (input st))] ∧ r.1 = mkPanel [] false)
  ∧ (trim (input st) = [] → r = (st, mkEffects [] [])).
Proof.
  intros Hsock. unfold handleSubmit.
  destruct (trim (input st)) as [|c w] eqn:Et; simpl.
  - split; [congruence | reflexivity].
  - split; [|discriminate]. intros _. split; [|reflexivity].
    apply sendMessage_emits; [|exact Hsock].
    rewrite <- Et, trim_idem, Et. discriminate.
Qed.

Lemma submit_sends_trimmed_line_witness :
  is_Some (socketRef bobs)
  ∧ emitted (handleSubmit (sendMessage bobs) typed).2 = [EmitChatSend [0x68; 0x69]%N]
  ∧ (handleSubmit (sendMessage bobs) typed).1 = mkPanel [] false.
Proof.
  assert (Hs : is_Some (socketRef bobs)) by (eexists; reflexivity).
  split; [exact Hs|].
  apply (proj1 (submit_sends_trimmed_line bobs typed Hs)). discriminate.
Defined.

(** *** Sender colours *)

Lemma find_participant_left (pid : string) (ps : list Participant) :
  List.find (λ p, String.eqb (p_id p) pid) (participant_left pid ps) = None.
Proof.
  unfold participant_left. induction ps as [|p ps IH]; simpl; [reflexivity|].
  destruct (String.eqb (p_id p) pid) eqn:E; simpl; [exact IH|].
  now rewrite E.
Qed.

(** Messages of a sender who has left the room, or who never was on the
    list, are shown in the default colour. *)
Theorem left_sender_gets_default_colour (pid : string) (ps : list Participant) :
  getParticipantColor (participant_left pid ps) pid = defaultColor
  ∧ (pid ∉ participant_ids ps → getParticipantColor ps pid = defaultColor).
Proof.
  unfold getParticipantColor. split.
  - now rewrite find_participant_left.
  - intros Hn. rewrite <- (RoomProofs.participant_left_absent pid ps Hn).
    now rewrite find_participant_left.
Qed.

(** *** The unread badge *)

Lemma pageRun_live_hidden (lives : list (Q * ChatMessage)) (s : RoomState) (b : Badge) :
  showChat b = false →
  pageRun (live_messages lives) (s, b) = (run (live_messages lives) s, b).
Proof.
  intros Hb. revert s. induction lives as [|[t m] lives IH]; intros s; [reflexivity|].
  unfold pageRun, live_messages in *. simpl.
  unfold pageStep at 2. simpl. unfold markRead. rewrite Hb. apply IH.
Qed.

(** With the chat closed after having been open on the current log, the
    badge counts exactly the live messages received since; a history
    snapshot no longer than the log that was seen shows zero, never a
    negative count; opening the chat clears the badge. *)
Theorem unread_counts_arrivals
    (s : RoomState) (b : Badge) (lives : list (Q * ChatMessage))
    (t : Q) (history : list ChatMessage) :
  showChat b = true →
  let closed := pageToggle (s, markRead (messages s) b) in
  let later := pageRun (live_messages lives) closed in
  let resynced := pageStep closed (t, ChatHistory history) in
  unreadCount (messages later.1) later.2 = Z.of_nat (length lives)
  ∧ (length history <= length (messages s) →
       unreadCount (messages resynced.1) resynced.2 = 0%Z)
  ∧ unreadCount (messages (pageToggle later).1) (pageToggle later).2 = 0%Z.
Proof.
  intros Hb. unfold pageToggle, toggleChat, markRead. simpl. rewrite Hb. simpl.
  rewrite pageRun_live_hidden by reflexivity. simpl.
  split; [|split].
  - unfold unreadCount. simpl. rewrite RoomProofs.run_live_messages.
    rewrite length_app, length_map. lia.
  - intros Hle. unfold unreadCount. simpl. lia.
  - reflexivity.
Qed.

Lemma unread_counts_arrivals_witness :
  showChat initialBadge = true
  ∧ unreadCount
      (messages (pageRun (live_messages [(2000%Q, hello); (3000%Q, again)])
                         (pageToggle (room3, markRead (messages room3) initialBadge))).1)
      (pageRun (live_messages [(2000%Q, hello); (3000%Q, again)])
               (pageToggle (room3, markRead (messages room3) initialBadge))).2
    = 2%Z.
Proof.
  split; [reflexivity|].
  exact (proj1 (unread_counts_arrivals room3 initialBadge
                  [(2000%Q, hello); (3000%Q, again)] 0%Q [] eq_refl)).
Defined.

End ChatProofs.
